(** * CompareSequences: pairwise global alignment (src/ex2/CompareSequences.c)

    A shallow embedding of the alignment engine of CompareSequences.c: the
    Sequence records built by the parser, the table of Cells filled by
    [fillTable], and the backtrace of [calAlignment].

    Conventions of the embedding.
    - [int] is a 32-bit two's-complement integer: a value of type [Z] kept in
      range by [int_wrap] after every addition and multiplication.
    - [size_t] is a 64-bit unsigned integer: a value of type [Z] kept in range
      by [size_wrap]; [0 - 1] is [2^64 - 1].
    - a C string is the list of the characters before its terminator; a
      [char *] that may be [NULL] is an [option].
    - a pointer [&table[r][c]] is the pair [(r, c)]; the table is a list of
      rows, and a read or write outside of it has no result ([None]).
    - [malloc] does not clear what it returns.  The contents found in a fresh
      block are a parameter of the function that allocates it.
    - the values carry no block sizes.  Where a result depends on the size
      of a block, the size is written out: in the definition
      ([setSeqVal_sized], [compareWithRest]) or as a hypothesis on the heap
      ([shortStale]).
    - printing is modelled by returning what is printed. *)

From Stdlib Require Import ZArith Ascii String Lia.
From stdpp Require Import base option list strings pretty.

Local Open Scope Z_scope.

(** ** Machine integers *)

Definition int_wrap (z : Z) : Z := (z + 2^31) mod 2^32 - 2^31.
Definition int_add (a b : Z) : Z := int_wrap (a + b).
Definition int_mul (a b : Z) : Z := int_wrap (a * b).
Definition INT_MAX : Z := 2^31 - 1.

Definition size_wrap (z : Z) : Z := z mod 2^64.
Definition size_add (a b : Z) : Z := size_wrap (a + b).
Definition size_sub (a b : Z) : Z := size_wrap (a - b).

(** ** C strings and arrays indexed by a [size_t] *)

Definition NUL : ascii := Ascii.zero.
Definition SPACE_CHAR : ascii := "-"%char.
Definition NEW_LINE : list ascii := ["010"%char].

Definition at_index {A} (l : list A) (i : Z) : option A :=
  if bool_decide (0 <= i < Z.of_nat (length l)) then l !! Z.to_nat i else None.

(** [s[i]] for a [char *]: [NULL] cannot be read, the byte after the last
    character is the terminator, and nothing lies beyond it. *)
Definition char_at (s : option (list ascii)) (i : Z) : option ascii :=
  match s with
  | None => None
  | Some l => if bool_decide (i = Z.of_nat (length l)) then Some NUL else at_index l i
  end.

Definition strlen (s : list ascii) : Z := Z.of_nat (length s).
Definition strcat (dst src : list ascii) : list ascii := dst ++ src.

(** ** Part 1: sequences *)

Record Sequence := mkSequence {
  seqName : option (list ascii);
  seqVal : option (list ascii);
  seqLen : Z
}.

(** [initializeSeq]: the block comes from [malloc]; the function stores
    [NULL] in [seqName], [NULL] and then [0] in [seqVal], and never writes
    [seqLen], which keeps what the block held ([stale]). *)
Definition initializeSeq (stale : Z) : Sequence :=
  let seq := mkSequence None None stale in
  let seq := mkSequence (seqName seq) None (seqLen seq) in
  mkSequence (seqName seq) None (seqLen seq).

Definition setSeqName (seq : Sequence) (name : list ascii) : Sequence :=
  mkSequence (Some name) (seqVal seq) (seqLen seq).

Definition setSeqLen (seq : Sequence) (len : Z) : Sequence :=
  mkSequence (seqName seq) (seqVal seq) (size_add (seqLen seq) len).

Definition setSeqVal (seq : Sequence) (val : list ascii) : Sequence :=
  let old :=
    match seqVal seq with
    | None => []
    | Some cur => cur
    end in
  let seq := mkSequence (seqName seq) (Some (old ++ val)) (seqLen seq) in
  setSeqLen seq (strlen val).

Definition getSeqName (seq : Sequence) := seqName seq.
Definition getSeqVal (seq : Sequence) := seqVal seq.
Definition getSeqLen (seq : Sequence) := seqLen seq.

(** What the parser does for one record: a header line, then its value
    lines. *)
Definition parseRecord (stale : Z) (name : list ascii) (lines : list (list ascii))
  : Sequence :=
  foldl setSeqVal (setSeqName (initializeSeq stale) name) lines.

(** ** Part 2: the score table *)

Record Cell := mkCell {
  sourceCell : option (Z * Z);
  sourceChar : ascii;
  score : Z
}.

#[global] Instance Cell_eq_dec : EqDecision Cell.
Proof. solve_decision. Defined.

Abbreviation Table := (list (list Cell)).

Definition load (table : Table) (r c : Z) : option Cell :=
  row ← at_index table r; at_index row c.

Definition store (table : Table) (r c : Z) (x : Cell) : option Table :=
  row ← at_index table r;
  _ ← at_index row c;
  Some (<[Z.to_nat r := <[Z.to_nat c := x]> row]> table).

Definition initializeCell (table : Table) (cell : Z * Z)
    (sourceCell : option (Z * Z)) (sourceChar : ascii) (score : Z) : option Table :=
  store table cell.1 cell.2 (mkCell sourceCell sourceChar score).

Definition getScore (table : Table) (cell : Z * Z) : option Z :=
  score <$> load table cell.1 cell.2.

Definition getSourceChar (table : Table) (cell : Z * Z) : option ascii :=
  sourceChar <$> load table cell.1 cell.2.

Definition getSource (table : Table) (cell : Z * Z) : option (option (Z * Z)) :=
  sourceCell <$> load table cell.1 cell.2.

Definition calByAbove (table : Table) (row col g : Z) : option Z :=
  x ← getScore table (size_sub row 1, col); Some (int_add x g).

Definition calByLeft (table : Table) (row col g : Z) : option Z :=
  x ← getScore table (row, size_sub col 1); Some (int_add x g).

Definition calByDiagonal (table : Table) (row col : Z)
    (seq1Val seq2Val : option (list ascii)) (m s : Z) : option Z :=
  a ← char_at seq1Val (size_sub row 1);
  b ← char_at seq2Val (size_sub col 1);
  x ← getScore table (size_sub row 1, size_sub col 1);
  if bool_decide (a = b) then Some (int_add x m) else Some (int_add x s).

Definition MAX (x y : Z) : Z := if bool_decide (x > y) then x else y.
Definition TERNARY_MAX (x y z : Z) : Z := MAX (MAX x y) z.

(** The source pointer and tag that [setCell] picks for the three
    candidates. *)
Definition chooseSource (row col max leftScore aboveScore diagonalScore : Z)
  : option (Z * Z) * ascii :=
  if bool_decide (max = diagonalScore)
  then (Some (size_sub row 1, size_sub col 1), "D"%char)
  else if bool_decide (max = leftScore)
  then (Some (row, size_sub col 1), "L"%char)
  else if bool_decide (max = aboveScore)
  then (Some (size_sub row 1, col), "A"%char)
  else (None, NUL).

Definition setCell (table : Table) (row col : Z)
    (seq1Val seq2Val : option (list ascii)) (m s g : Z) : option Table :=
  leftScore ← calByLeft table row col g;
  aboveScore ← calByAbove table row col g;
  diagonalScore ← calByDiagonal table row col seq1Val seq2Val m s;
  let max := TERNARY_MAX leftScore aboveScore diagonalScore in
  let src := chooseSource row col max leftScore aboveScore diagonalScore in
  initializeCell table (row, col) src.1 src.2 max.

(** [createTable]: [rows] blocks of [cols] cells each, holding whatever the
    heap held ([stale r c]). *)
Definition createTable (stale : nat -> nat -> Cell) (rows cols : Z) : Table :=
  (fun r => stale r <$> seq 0 (Z.to_nat cols)) <$> seq 0 (Z.to_nat rows).

(** [for (k = from; k < to; ++k) body]: the body runs [to - from] times when
    [from <= to], and not at all otherwise. *)
Fixpoint for_loop {St} (n : nat) (k : Z) (body : Z -> St -> option St) (st : St)
  : option St :=
  match n with
  | O => Some st
  | S n' => st' ← body k st; for_loop n' (k + 1) body st'
  end.

Definition for_range {St} (from to : Z) (body : Z -> St -> option St) (st : St)
  : option St :=
  for_loop (Z.to_nat (to - from)) from body st.

Definition initializeTable (table : Table) (rows cols g : Z) : option Table :=
  table ← initializeCell table (0, 0) None NUL 0;
  table ← for_range 1 rows
    (fun r t => initializeCell t (r, 0) None NUL (int_mul (int_wrap r) g)) table;
  for_range 1 cols
    (fun c t => initializeCell t (0, c) None NUL (int_mul (int_wrap c) g)) table.

Definition fillTable (table : Table) (seq1 seq2 : Sequence) (m s g : Z)
  : option Table :=
  let rows := size_add (getSeqLen seq1) 1 in
  let cols := size_add (getSeqLen seq2) 1 in
  let seq1Val := getSeqVal seq1 in
  let seq2Val := getSeqVal seq2 in
  table ← initializeTable table rows cols g;
  for_range 1 rows
    (fun r t => for_range 1 cols
       (fun c t => setCell t r c seq1Val seq2Val m s g) t) table.

(** ** Part 2 flow: the backtrace *)

(** [analyzeSourceChar] writes one character and a terminator at the start
    of each of the two fresh blocks and moves the cursors; for a tag that is
    none of 'D', 'L', 'A' it writes nothing and the blocks keep the strings
    they held. *)
Definition analyzeSourceChar (sourceChar : ascii) (seq1Final seq2Final : list ascii)
    (seq1Val seq2Val : option (list ascii)) (i j : Z)
  : option (list ascii * list ascii * Z * Z) :=
  if bool_decide (sourceChar = "D"%char) then
    a ← char_at seq1Val i;
    b ← char_at seq2Val j;
    Some ([a], [b], size_sub i 1, size_sub j 1)
  else if bool_decide (sourceChar = "L"%char) then
    b ← char_at seq2Val j;
    Some ([SPACE_CHAR], [b], i, size_sub j 1)
  else if bool_decide (sourceChar = "A"%char) then
    a ← char_at seq1Val i;
    Some ([a], [SPACE_CHAR], size_sub i 1, j)
  else Some (seq1Final, seq2Final, i, j).

Definition createAlignment (paramLen : Z) (seq1Aligned seq2Aligned : list ascii)
  : list ascii :=
  strcat (strcat (strcat seq1Aligned NEW_LINE) seq2Aligned) NEW_LINE.

(** The state of the [while] loop of [calAlignment]. *)
Record Walk := mkWalk {
  currCell : option (Z * Z);
  seq1Add : list ascii;
  seq2Add : list ascii;
  cur_i : Z;
  cur_j : Z;
  idx : Z
}.

(** One run of the loop body at a non-null [currCell]; [stale idx] is what
    the two blocks allocated in this run hold. *)
Definition walk_step (table : Table) (seq1Val seq2Val : option (list ascii))
    (stale : Z -> list ascii * list ascii) (cell : Z * Z) (w : Walk) : option Walk :=
  sourceChar ← getSourceChar table cell;
  '(seq1Final, seq2Final, i, j) ←
    analyzeSourceChar sourceChar (stale (idx w)).1 (stale (idx w)).2
      seq1Val seq2Val (cur_i w) (cur_j w);
  next ← getSource table cell;
  Some (mkWalk next (strcat seq1Final (seq1Add w)) (strcat seq2Final (seq2Add w))
          i j (idx w + 1)).

(** [while (currCell != NULL)]; the loop has no bound of its own, the model
    stops with no result when [fuel] runs out. *)
Fixpoint walk_loop (fuel : nat) (table : Table) (seq1Val seq2Val : option (list ascii))
    (stale : Z -> list ascii * list ascii) (w : Walk) : option Walk :=
  match currCell w with
  | None => Some w
  | Some cell =>
    match fuel with
    | O => None
    | S fuel' =>
      w' ← walk_step table seq1Val seq2Val stale cell w;
      walk_loop fuel' table seq1Val seq2Val stale w'
    end
  end.

Definition walk_start (seq1 seq2 : Sequence) (rows cols : Z) : Walk :=
  mkWalk (Some (size_sub rows 1, size_sub cols 1)) [] []
    (size_sub (getSeqLen seq1) 1) (size_sub (getSeqLen seq2) 1) 1.

(** The two aligned strings at the end of the loop of [calAlignment]. *)
Definition calAlignment_strings (fuel : nat) (stale : Z -> list ascii * list ascii)
    (seq1 seq2 : Sequence) (table : Table) (rows cols : Z)
  : option (list ascii * list ascii) :=
  w ← walk_loop fuel table (getSeqVal seq1) (getSeqVal seq2) stale
        (walk_start seq1 seq2 rows cols);
  Some (seq1Add w, seq2Add w).

Definition calAlignment (fuel : nat) (stale : Z -> list ascii * list ascii)
    (seq1 seq2 : Sequence) (table : Table) (rows cols : Z) : option (list ascii) :=
  w ← walk_loop fuel table (getSeqVal seq1) (getSeqVal seq2) stale
        (walk_start seq1 seq2 rows cols);
  Some (createAlignment (idx w) (seq1Add w) (seq2Add w)).

(** What the heap holds when [compareSequences] allocates. *)
Record Heap := mkHeap {
  stale_cells : nat -> nat -> Cell;
  stale_strings : Z -> list ascii * list ascii
}.

(** A walk that visits no cell twice has at most [rows * cols] steps, and one
    that does never ends: this fuel is enough for every walk that ends. *)
Definition walk_fuel (rows cols : Z) : nat := S (Z.to_nat (rows * cols)).

(** [compareSequences]: the score passed to [printScore] and the alignment
    returned. *)
Definition compareSequences (heap : Heap) (seq1 seq2 : Sequence) (m s g : Z)
  : option (Z * list ascii) :=
  let rows := size_add (getSeqLen seq1) 1 in
  let cols := size_add (getSeqLen seq2) 1 in
  let table := createTable (stale_cells heap) rows cols in
  table ← fillTable table seq1 seq2 m s g;
  score ← getScore table (size_sub rows 1, size_sub cols 1);
  alignment ← calAlignment (walk_fuel rows cols) (stale_strings heap)
                 seq1 seq2 table rows cols;
  Some (score, alignment).

(** ** Part 1 flow: reading the sequence file *)

Definition HEADER_PREFIX : ascii := ">"%char.
Definition MAX_LINE_LEN : Z := 100.
Definition NEW_LINE_LEN : Z := 1.

(** The string that starts at a [char *]: the bytes before the first zero
    byte. *)
Fixpoint c_string (bytes : list ascii) : list ascii :=
  match bytes with
  | [] => []
  | ch :: rest => if bool_decide (ch = NUL) then [] else ch :: c_string rest
  end.

(** What [fgets] puts in the buffer when it may read [k] characters: the
    characters up to and including the first new line, [k] of them at most;
    and what it leaves in the file. *)
Fixpoint read_line (k : nat) (file : list ascii) : list ascii * list ascii :=
  match k, file with
  | S k', ch :: rest =>
    if bool_decide (ch = "010"%char) then ([ch], rest)
    else let r := read_line k' rest in (ch :: r.1, r.2)
  | _, _ => ([], file)
  end.

(** [fgets(buff, n, file)]: [NULL] at the end of the file, and [n - 1]
    characters at most otherwise. *)
Definition fgets (n : Z) (file : list ascii) : option (list ascii * list ascii) :=
  match file with
  | [] => None
  | _ => Some (read_line (Z.to_nat (n - 1)) file)
  end.

Fixpoint skip_delimiters (delim str : list ascii) : list ascii :=
  match str with
  | [] => []
  | ch :: rest => if bool_decide (ch ∈ delim) then skip_delimiters delim rest else str
  end.

Fixpoint first_token (delim str : list ascii) : list ascii :=
  match str with
  | [] => []
  | ch :: rest => if bool_decide (ch ∈ delim) then [] else ch :: first_token delim rest
  end.

(** The first call of [strtok] on a string: the first run of characters that
    are no delimiters, [NULL] when there is none. *)
Definition strtok (str delim : list ascii) : option (list ascii) :=
  match skip_delimiters delim (c_string str) with
  | [] => None
  | rest => Some (first_token delim rest)
  end.

Definition refineData (str : list ascii) : option (list ascii) :=
  strtok str NEW_LINE.

(** The variables of [parseSeqFile]: the list from [head] to the record
    before [seq], the record that [seq] points to ([None] for [NULL]), the flag
    [toStart] and the counter behind [seqNum]. *)
Record ParseState := mkParseState {
  closed : list Sequence;
  cur_seq : option Sequence;
  toStart : bool;
  seqNum : Z
}.

Definition linked (st : ParseState) : list Sequence :=
  closed st ++ option_list (cur_seq st).

(** [setSeqVal] with the size of the block of the value.  Only the call that
    finds [seqVal] null allocates: [strlen (val) + 1] bytes, which [val] and
    its terminator fill.  A later call allocates nothing and copies the
    [strlen (val) + 1] bytes of [val] from the offset [idx = strlen (seqVal)]
    on, in a block of [strlen (seqVal) + 1] bytes; a write behind the block
    has no result. *)
Definition setSeqVal_sized (seq : Sequence) (val : list ascii) : option Sequence :=
  match seqVal seq with
  | None => Some (setSeqVal seq val)
  | Some cur =>
    let size := strlen cur + 1 in
    let idx := strlen cur in
    if bool_decide (idx + (strlen val + 1) <= size)
    then Some (setSeqVal seq val)
    else None
  end.

(** One run of the loop body of [parseSeqFile] on the line in [buff];
    [stale k] is what the [seqLen] bytes of the k-th record block hold.
    [strlen], [strcpy] and a field access applied to [NULL] have no
    result. *)
Definition parseLine (stale : nat -> Z) (buff : list ascii) (st : ParseState)
  : option ParseState :=
  if toStart st && bool_decide (head buff = Some HEADER_PREFIX) then
    let new := initializeSeq (stale (length (linked st))) in
    seqName ← refineData (tail buff);
    Some (mkParseState (linked st) (Some (setSeqName new seqName)) false
            (size_add (seqNum st) 1))
  else if bool_decide (c_string buff <> NEW_LINE) then
    seqVal ← refineData buff;
    cur ← cur_seq st;
    cur ← setSeqVal_sized cur seqVal;
    Some (mkParseState (closed st) (Some cur) true (seqNum st))
  else Some st.

(** [while (line != NULL)]: every [fgets] that returns a line takes at least
    one character from the file. *)
Fixpoint parseLoop (fuel : nat) (stale : nat -> Z) (file : list ascii)
    (st : ParseState) : option ParseState :=
  match fgets (MAX_LINE_LEN + NEW_LINE_LEN) file with
  | None => Some st
  | Some (buff, rest) =>
    match fuel with
    | O => None
    | S fuel' =>
      st' ← parseLine stale buff st;
      parseLoop fuel' stale rest st'
    end
  end.

(** [parseSeqFile]: the list of records from [head] on, and the counter. *)
Definition parseSeqFile (stale : nat -> Z) (file : list ascii) (seqNum0 : Z)
  : option (list Sequence * Z) :=
  st ← parseLoop (length file) stale file (mkParseState [] None true seqNum0);
  Some (linked st, seqNum st).

(** ** Part 2 flow: all pairs *)

(** [printScore]: the line printed; [%s] of [NULL] has no result. *)
Definition printScore (seq1Name seq2Name : option (list ascii)) (score : Z)
  : option (list ascii) :=
  name1 ← seq1Name;
  name2 ← seq2Name;
  Some (list_ascii_of_string "Score for alignment of " ++ name1
        ++ list_ascii_of_string " to " ++ name2
        ++ list_ascii_of_string " is " ++ list_ascii_of_string (pretty score)
        ++ NEW_LINE).

(** What [calAndPrintScores] has printed and collected so far; [idx] is the
    number of alignments collected. *)
Record Driver := mkDriver {
  printed : list ascii;
  alignments : list (list ascii)
}.

(** The inner loop: [seq2] runs from the record after [seq1] to the end of
    the list; [heaps k] is the heap at the k-th call of
    [compareSequences].  Every run reallocates the array [alignments] to
    the size of one pointer and writes [alignments[idx]]: the write is
    inside the block for [idx = 0] only, and a write behind the block has no
    result. *)
Fixpoint compareWithRest (heaps : nat -> Heap) (seq1 : Sequence)
    (rest : list Sequence) (m s g : Z) (d : Driver) : option Driver :=
  match rest with
  | [] => Some d
  | seq2 :: rest' =>
    '(score, alignment) ←
      compareSequences (heaps (length (alignments d))) seq1 seq2 m s g;
    line ← printScore (getSeqName seq1) (getSeqName seq2) score;
    let idx := length (alignments d) in
    if bool_decide (idx < 1)%nat then
      compareWithRest heaps seq1 rest' m s g
        (mkDriver (printed d ++ line) (alignments d ++ [alignment]))
    else None
  end.

(** The outer loop: [getSeqNext(seq1)] of an empty list reads a field of
    [NULL]. *)
Fixpoint compareAll (heaps : nat -> Heap) (sequences : list Sequence)
    (m s g : Z) (d : Driver) : option Driver :=
  match sequences with
  | [] => None
  | seq1 :: rest =>
    match rest with
    | [] => Some d
    | _ =>
      d' ← compareWithRest heaps seq1 rest m s g d;
      compareAll heaps rest m s g d'
    end
  end.

Definition printAlignment (alignments : list (list ascii)) : list ascii :=
  concat alignments.

(** [calAndPrintScores]: everything printed, the scores during the loops
    and the alignments after them. *)
Definition calAndPrintScores (heaps : nat -> Heap) (sequences : list Sequence)
    (m s g : Z) : option (list ascii) :=
  d ← compareAll heaps sequences m s g (mkDriver [] []);
  Some (printed d ++ printAlignment (alignments d)).

(** * Definitions used to state the properties *)

(** ** Shapes and expected contents of the table *)

Definition shaped (t : Table) (rows cols : nat) : Prop :=
  length t = rows /\ forall r row, t !! r = Some row -> length row = cols.

Definition boundaryCell (k : nat) (g : Z) : Cell :=
  mkCell None NUL (int_mul (int_wrap (Z.of_nat k)) g).

Definition pairScore (A B : list ascii) (m s : Z) (r c : nat) : Z :=
  if bool_decide (A !! r = B !! c) then m else s.

(** The score that the loops of [fillTable] leave in [table[r][c]]. *)
Fixpoint tableScore (A B : list ascii) (m s g : Z) (r : nat) : nat -> Z :=
  match r with
  | O => fun c => int_mul (int_wrap (Z.of_nat c)) g
  | S r' =>
    fix rowScore (c : nat) : Z :=
      match c with
      | O => int_mul (int_wrap (Z.of_nat (S r'))) g
      | S c' =>
        TERNARY_MAX (int_add (rowScore c') g)
                    (int_add (tableScore A B m s g r' (S c')) g)
                    (int_add (tableScore A B m s g r' c') (pairScore A B m s r' c'))
      end
  end.

Definition leftScoreAt (A B : list ascii) (m s g : Z) (r c : nat) : Z :=
  int_add (tableScore A B m s g (S r) c) g.
Definition aboveScoreAt (A B : list ascii) (m s g : Z) (r c : nat) : Z :=
  int_add (tableScore A B m s g r (S c)) g.
Definition diagonalScoreAt (A B : list ascii) (m s g : Z) (r c : nat) : Z :=
  int_add (tableScore A B m s g r c) (pairScore A B m s r c).

(** The cell that the loops of [fillTable] leave in [table[r][c]]. *)
Definition tableCell (A B : list ascii) (m s g : Z) (r c : nat) : Cell :=
  match r, c with
  | S r', S c' =>
    let src := chooseSource (Z.of_nat r) (Z.of_nat c) (tableScore A B m s g r c)
                 (leftScoreAt A B m s g r' c') (aboveScoreAt A B m s g r' c')
                 (diagonalScoreAt A B m s g r' c') in
    mkCell src.1 src.2 (tableScore A B m s g r c)
  | _, _ => mkCell None NUL (tableScore A B m s g r c)
  end.

(** The recurrence of the table over the integers, without wrap-around. *)
Fixpoint idealScore (A B : list ascii) (m s g : Z) (r : nat) : nat -> Z :=
  match r with
  | O => fun c => Z.of_nat c * g
  | S r' =>
    fix rowScore (c : nat) : Z :=
      match c with
      | O => Z.of_nat (S r') * g
      | S c' =>
        Z.max (Z.max (rowScore c' + g) (idealScore A B m s g r' (S c') + g))
              (idealScore A B m s g r' c' + pairScore A B m s r' c')
      end
  end.

(** ** Sequences as the aligner receives them *)

(** [seq] holds the string [A], its length field agrees with it, and the
    string with its terminator fits the address space. *)
Definition holds (seq : Sequence) (A : list ascii) : Prop :=
  seqVal seq = Some A /\ seqLen seq = strlen A /\ strlen A + 1 < 2^64.

(** ** Global alignments and their scores *)

(** One column of an alignment: a symbol of each sequence, or a symbol of one
    of them over a gap in the other. *)
Inductive Column :=
| Both (a b : ascii)
| GapInSecond (a : ascii)
| GapInFirst (b : ascii).

Definition firstSymbol (col : Column) : list ascii :=
  match col with
  | Both a _ | GapInSecond a => [a]
  | GapInFirst _ => []
  end.

Definition secondSymbol (col : Column) : list ascii :=
  match col with
  | Both _ b | GapInFirst b => [b]
  | GapInSecond _ => []
  end.

Definition firstRow (al : list Column) : list ascii := al ≫= firstSymbol.
Definition secondRow (al : list Column) : list ascii := al ≫= secondSymbol.

(** A global alignment of [A] and [B] spells [A] in its first row and [B] in
    its second one. *)
Definition aligns (al : list Column) (A B : list ascii) : Prop :=
  firstRow al = A /\ secondRow al = B.

Definition columnScore (m s g : Z) (col : Column) : Z :=
  match col with
  | Both a b => if bool_decide (a = b) then m else s
  | GapInSecond _ | GapInFirst _ => g
  end.

Definition alignmentScore (m s g : Z) (al : list Column) : Z :=
  foldr (fun col acc => columnScore m s g col + acc) 0 al.

(** [sc] is the optimal global alignment score of [A] and [B]: some
    alignment has it and none has more. *)
Definition optimalScore (A B : list ascii) (m s g sc : Z) : Prop :=
  (exists al, aligns al A B /\ alignmentScore m s g al = sc) /\
  forall al, aligns al A B -> alignmentScore m s g al <= sc.

(** ** Example inputs *)

(** A heap whose fresh blocks are all zero. *)
Definition zeroedHeap : Heap :=
  mkHeap (fun _ _ => mkCell None NUL 0) (fun _ => ([], [])).

(** A heap where the first block allocated in the second run of the loop of
    [calAlignment] starts with the bytes 'x', 0 and the second with 0. *)
Definition usedHeap : Heap :=
  mkHeap (fun _ _ => mkCell None NUL 0)
         (fun idx => if bool_decide (idx = 2) then (["x"%char], []) else ([], [])).

(** The strings found in the two blocks that a run of the loop of
    [calAlignment] allocates have one character at most.  The blocks of the
    run with counter [idx] have [1 + idx] bytes, and the strings of the
    [idx - 1] runs before it have [idx - 1] characters at most: on such a
    heap [strcat] in the run on the cell without source leaves [idx]
    characters at most and stays inside the blocks.  [createAlignment] is
    then called with [idx + 1] and its block of [2 * (idx + 1) + 1] bytes
    has room for the two strings, two new lines and a terminator. *)
Definition shortStale (heap : Heap) : Prop :=
  forall k : Z,
    (length (stale_strings heap k).1 <= 1)%nat /\
    (length (stale_strings heap k).2 <= 1)%nat.

(** The record that the parser builds on a zeroed block for a one-line
    sequence. *)
Definition record (val : string) : Sequence :=
  parseRecord 0 [] [list_ascii_of_string val].

Definition dropGaps (str : list ascii) : list ascii :=
  filter (fun ch => ch <> SPACE_CHAR) str.

(** ** The path of the backtrace *)

(** The characters that a column contributes to the two printed strings. *)
Definition firstChar (col : Column) : ascii :=
  match col with
  | Both a _ | GapInSecond a => a
  | GapInFirst _ => SPACE_CHAR
  end.

Definition secondChar (col : Column) : ascii :=
  match col with
  | Both _ b | GapInFirst b => b
  | GapInSecond _ => SPACE_CHAR
  end.

(** The columns met when the tags of the filled table are followed from
    [table[r][c]], leftmost column first, and the cell where the tags end. *)
Fixpoint traceback (A B : list ascii) (m s g : Z) (fuel r c : nat)
  : list Column * (nat * nat) :=
  match fuel with
  | O => ([], (r, c))
  | S fuel' =>
    match r, c with
    | S r', S c' =>
      match A !! r', B !! c' with
      | Some a, Some b =>
        let tag := sourceChar (tableCell A B m s g r c) in
        if bool_decide (tag = "D"%char) then
          let rest := traceback A B m s g fuel' r' c' in
          (rest.1 ++ [Both a b], rest.2)
        else if bool_decide (tag = "L"%char) then
          let rest := traceback A B m s g fuel' r c' in
          (rest.1 ++ [GapInFirst b], rest.2)
        else
          let rest := traceback A B m s g fuel' r' c in
          (rest.1 ++ [GapInSecond a], rest.2)
      | _, _ => ([], (r, c))
      end
    | _, _ => ([], (r, c))
    end
  end.

(** ** Sequence files *)

(** A string with no new line and no zero byte in it. *)
Definition plainText (str : list ascii) : Prop :=
  Forall (fun ch => ch <> "010"%char /\ ch <> NUL) str.

(** A record of a sequence file as text: the header line with the name,
    then one line with the value. *)
Definition renderRecord (rec : list ascii * list ascii) : list ascii :=
  HEADER_PREFIX :: rec.1 ++ NEW_LINE ++ rec.2 ++ NEW_LINE.

(** A value line that [fgets] reads in one piece and [parseSeqFile] takes
    for a value. *)
Definition valueLine (l : list ascii) : Prop :=
  l <> [] /\ plainText l /\ (length l < 100)%nat.

(** A record that [parseSeqFile] reads back: a name and one value line, both
    short enough for the buffer. *)
Definition readableRecord (rec : list ascii * list ascii) : Prop :=
  rec.1 <> [] /\ plainText rec.1 /\ (length rec.1 < 99)%nat /\ valueLine rec.2.

(** The record that [parseSeqFile] builds in the k-th block for a readable
    record. *)
Definition recordOf (stale : nat -> Z) (k : nat) (rec : list ascii * list ascii)
  : Sequence :=
  mkSequence (Some rec.1) (Some rec.2) (size_wrap (stale k + strlen rec.2)).

(** * Properties *)

(** ** Machine arithmetic *)

Lemma int_wrap_small z : - 2^31 <= z < 2^31 -> int_wrap z = z.
Proof. intros H. unfold int_wrap. rewrite Z.mod_small; lia. Qed.

Lemma size_wrap_small z : 0 <= z < 2^64 -> size_wrap z = z.
Proof. intros H. unfold size_wrap. now rewrite Z.mod_small. Qed.

Lemma size_succ_nat (k : nat) :
  Z.of_nat k + 1 < 2^64 -> size_add (Z.of_nat k) 1 = Z.of_nat (S k).
Proof. intros H. unfold size_add. rewrite size_wrap_small; lia. Qed.

Lemma size_pred_nat (k : nat) :
  Z.of_nat k + 1 < 2^64 -> size_sub (Z.of_nat (S k)) 1 = Z.of_nat k.
Proof. intros H. unfold size_sub. rewrite size_wrap_small; lia. Qed.

Lemma MAX_spec x y : MAX x y = Z.max x y.
Proof. unfold MAX. case_bool_decide; lia. Qed.

Lemma TERNARY_MAX_spec x y z : TERNARY_MAX x y z = Z.max (Z.max x y) z.
Proof. unfold TERNARY_MAX. now rewrite !MAX_spec. Qed.

Lemma TERNARY_MAX_cases x y z :
  TERNARY_MAX x y z = z \/ TERNARY_MAX x y z = x \/ TERNARY_MAX x y z = y.
Proof. rewrite TERNARY_MAX_spec. lia. Qed.

Lemma TERNARY_MAX_swap x y z : TERNARY_MAX x y z = TERNARY_MAX y x z.
Proof. rewrite !TERNARY_MAX_spec. lia. Qed.

(** ** Reading and writing the table *)

Lemma at_index_nat {A} (l : list A) (i : nat) : at_index l (Z.of_nat i) = l !! i.
Proof.
  unfold at_index. case_bool_decide as H.
  - now rewrite Nat2Z.id.
  - symmetry. apply lookup_ge_None. lia.
Qed.

Lemma at_index_Some {A} (l : list A) (i : Z) x :
  at_index l i = Some x -> 0 <= i < Z.of_nat (length l) /\ l !! Z.to_nat i = Some x.
Proof. unfold at_index. case_bool_decide; [tauto | discriminate]. Qed.

Lemma at_index_insert_eq {A} (l : list A) (i : nat) x :
  (i < length l)%nat -> at_index (<[i := x]> l) (Z.of_nat i) = Some x.
Proof. intros H. rewrite at_index_nat. now apply list_lookup_insert_eq. Qed.

Lemma load_nat (t : Table) (r c : nat) :
  load t (Z.of_nat r) (Z.of_nat c) = (t !! r) ≫= (fun row => row !! c).
Proof.
  unfold load. rewrite at_index_nat. destruct (t !! r) as [row|]; simpl; [|done].
  apply at_index_nat.
Qed.

Lemma store_nat (t : Table) (r c : nat) x rows cols :
  shaped t rows cols -> (r < rows)%nat -> (c < cols)%nat ->
  exists row, t !! r = Some row /\
    store t (Z.of_nat r) (Z.of_nat c) x = Some (<[r := <[c := x]> row]> t).
Proof.
  intros [Hlen Hrows] Hr Hc.
  destruct (lookup_lt_is_Some_2 t r) as [row Hrow]; [lia|].
  exists row. split; [done|].
  unfold store. rewrite at_index_nat, Hrow. simpl.
  rewrite at_index_nat.
  destruct (lookup_lt_is_Some_2 row c) as [y Hy]; [rewrite (Hrows _ _ Hrow); lia|].
  rewrite Hy. simpl. now rewrite !Nat2Z.id.
Qed.

Lemma shaped_insert (t : Table) (r c : nat) x row rows cols :
  shaped t rows cols -> t !! r = Some row ->
  shaped (<[r := <[c := x]> row]> t) rows cols.
Proof.
  intros [Hlen Hrows] Hrow. split.
  - now rewrite length_insert.
  - intros r' row' H'. destruct (decide (r = r')) as [->|Hne].
    + rewrite list_lookup_insert_eq in H' by (eapply lookup_lt_Some; eauto).
      injection H' as <-. rewrite length_insert. eauto.
    + rewrite list_lookup_insert_ne in H' by done. eauto.
Qed.

Lemma load_insert_eq (t : Table) (r c : nat) x row cols :
  t !! r = Some row -> length row = cols -> (c < cols)%nat ->
  load (<[r := <[c := x]> row]> t) (Z.of_nat r) (Z.of_nat c) = Some x.
Proof.
  intros Hrow Hlen Hc. rewrite load_nat.
  rewrite list_lookup_insert_eq by (eapply lookup_lt_Some; eauto). simpl.
  apply list_lookup_insert_eq. lia.
Qed.

Lemma load_insert_ne (t : Table) (r c r' c' : nat) x row :
  t !! r = Some row -> (r', c') <> (r, c) ->
  load (<[r := <[c := x]> row]> t) (Z.of_nat r') (Z.of_nat c')
  = load t (Z.of_nat r') (Z.of_nat c').
Proof.
  intros Hrow Hne. rewrite !load_nat.
  destruct (decide (r = r')) as [->|Hr].
  - rewrite list_lookup_insert_eq by (eapply lookup_lt_Some; eauto).
    rewrite Hrow. simpl. apply list_lookup_insert_ne. congruence.
  - now rewrite list_lookup_insert_ne.
Qed.

(** ** Loops *)

Lemma for_loop_invariant {St} (Inv : nat -> St -> Prop) (body : Z -> St -> option St)
    (from : Z) (n : nat) (st : St) :
  Inv O st ->
  (forall k st, (k < n)%nat -> Inv k st ->
     exists st', body (from + Z.of_nat k) st = Some st' /\ Inv (S k) st') ->
  exists st', for_loop n from body st = Some st' /\ Inv n st'.
Proof.
  revert Inv from st. induction n as [|n IH]; intros Inv from st H0 Hstep.
  - exists st. now split.
  - destruct (Hstep O st) as (st1 & Hb & H1); [lia | done |].
    rewrite Z.add_0_r in Hb. simpl. rewrite Hb. simpl.
    apply (IH (fun k => Inv (S k))); [done|].
    intros k st2 Hk Hinv.
    destruct (Hstep (S k) st2) as (st3 & Hb3 & H3); [lia | done |].
    exists st3. split; [|done]. rewrite <- Hb3. f_equal. lia.
Qed.

Lemma store_spec (t : Table) (rows cols r c : nat) (x : Cell) :
  shaped t rows cols -> (r < rows)%nat -> (c < cols)%nat ->
  exists t', store t (Z.of_nat r) (Z.of_nat c) x = Some t' /\
    shaped t' rows cols /\
    load t' (Z.of_nat r) (Z.of_nat c) = Some x /\
    forall r' c' : nat, (r', c') <> (r, c) ->
      load t' (Z.of_nat r') (Z.of_nat c') = load t (Z.of_nat r') (Z.of_nat c').
Proof.
  intros Hsh Hr Hc.
  destruct (store_nat t r c x rows cols Hsh Hr Hc) as (row & Hrow & Hst).
  eexists. split; [exact Hst|]. split; [|split].
  - eapply shaped_insert; eauto.
  - destruct Hsh as [_ Hrows].
    apply (load_insert_eq t r c x row cols); eauto.
  - intros r' c' Hne. now apply load_insert_ne.
Qed.

Lemma createTable_shaped stale (rows cols : nat) :
  shaped (createTable stale (Z.of_nat rows) (Z.of_nat cols)) rows cols.
Proof.
  unfold createTable. rewrite !Nat2Z.id. split.
  - now rewrite length_fmap, length_seq.
  - intros r row H. rewrite list_lookup_fmap in H.
    destruct (seq 0 rows !! r); simpl in H; [|discriminate].
    injection H as <-. now rewrite length_fmap, length_seq.
Qed.

(** ** The first row and the first column *)

Lemma boundaryCell_0 g : boundaryCell 0 g = mkCell None NUL 0.
Proof. reflexivity. Qed.

Lemma initializeTable_spec (t : Table) (rows cols : nat) (g : Z) :
  shaped t (S rows) (S cols) ->
  exists t', initializeTable t (Z.of_nat (S rows)) (Z.of_nat (S cols)) g = Some t' /\
    shaped t' (S rows) (S cols) /\
    (forall r : nat, (r <= rows)%nat ->
       load t' (Z.of_nat r) 0 = Some (boundaryCell r g)) /\
    (forall c : nat, (c <= cols)%nat ->
       load t' 0 (Z.of_nat c) = Some (boundaryCell c g)).
Proof.
  intros Hsh. unfold initializeTable, initializeCell. simpl fst. simpl snd.
  destruct (store_spec t (S rows) (S cols) 0 0 (mkCell None NUL 0) Hsh)
    as (t0 & Hst0 & Hsh0 & Hld0 & _); [lia | lia |].
  change (Z.of_nat 0) with 0 in *. rewrite Hst0. simpl.
  (* first column *)
  destruct (for_loop_invariant
    (fun k (u : Table) => shaped u (S rows) (S cols) /\
       forall r : nat, (r <= k)%nat -> load u (Z.of_nat r) 0 = Some (boundaryCell r g))
    (fun r u => store u r 0 (mkCell None NUL (int_mul (int_wrap r) g)))
    1 rows t0) as (t1 & Hl1 & Hsh1 & Hcol).
  { split; [done|]. intros r Hr. assert (r = O) as -> by lia. exact Hld0. }
  { intros k u Hk [Hshu Hu].
    replace (1 + Z.of_nat k) with (Z.of_nat (S k)) by lia.
    destruct (store_spec u (S rows) (S cols) (S k) 0
                (mkCell None NUL (int_mul (int_wrap (Z.of_nat (S k))) g)) Hshu)
      as (u' & Hst & Hsh' & Hld & Hfr); [lia | lia |].
    change (Z.of_nat 0) with 0 in *.
    exists u'. split; [exact Hst|]. split; [done|].
    intros r Hr. destruct (decide (r = S k)) as [->|Hne]; [exact Hld|].
    specialize (Hfr r O). change (Z.of_nat 0) with 0 in Hfr.
    rewrite Hfr by congruence. apply Hu. lia. }
  unfold for_range.
  replace (Z.to_nat (Z.of_nat (S rows) - 1)) with rows by lia.
  rewrite Hl1. simpl.
  (* first row *)
  destruct (for_loop_invariant
    (fun k (u : Table) => shaped u (S rows) (S cols) /\
       (forall r : nat, (r <= rows)%nat ->
          load u (Z.of_nat r) 0 = Some (boundaryCell r g)) /\
       forall c : nat, (c <= k)%nat -> load u 0 (Z.of_nat c) = Some (boundaryCell c g))
    (fun c u => store u 0 c (mkCell None NUL (int_mul (int_wrap c) g)))
    1 cols t1) as (t2 & Hl2 & Hsh2 & Hcol2 & Hrow2).
  { split; [done|]. split; [done|]. intros c Hc. assert (c = O) as -> by lia.
    apply (Hcol O). lia. }
  { intros k u Hk (Hshu & Hu1 & Hu2).
    replace (1 + Z.of_nat k) with (Z.of_nat (S k)) by lia.
    destruct (store_spec u (S rows) (S cols) 0 (S k)
                (mkCell None NUL (int_mul (int_wrap (Z.of_nat (S k))) g)) Hshu)
      as (u' & Hst & Hsh' & Hld & Hfr); [lia | lia |].
    change (Z.of_nat 0) with 0 in *.
    exists u'. split; [exact Hst|]. split; [done|]. split.
    - intros r Hr. specialize (Hfr r O). change (Z.of_nat 0) with 0 in Hfr.
      rewrite Hfr by congruence. now apply Hu1.
    - intros c Hc. destruct (decide (c = S k)) as [->|Hne]; [exact Hld|].
      specialize (Hfr O c). change (Z.of_nat 0) with 0 in Hfr.
      rewrite Hfr by congruence. apply Hu2. lia. }
  replace (Z.to_nat (Z.of_nat (S cols) - 1)) with cols by lia.
  exists t2. split; [exact Hl2|]. split; [done|]. split; [done|].
  intros c Hc. now apply Hrow2.
Qed.

(** ** The filled table *)

Section Fill.
Variables (A B : list ascii) (m s g : Z).

Lemma tableScore_interior r c :
  tableScore A B m s g (S r) (S c)
  = TERNARY_MAX (leftScoreAt A B m s g r c) (aboveScoreAt A B m s g r c) (diagonalScoreAt A B m s g r c).
Proof. reflexivity. Qed.

Lemma tableCell_score r c : score (tableCell A B m s g r c) = tableScore A B m s g r c.
Proof. destruct r, c; reflexivity. Qed.

Lemma tableCell_row0 c : tableCell A B m s g 0 c = boundaryCell c g.
Proof. reflexivity. Qed.

Lemma tableCell_col0 r : tableCell A B m s g r 0 = boundaryCell r g.
Proof. destruct r; reflexivity. Qed.

Lemma char_at_nat (l : list ascii) (i : nat) :
  (i < length l)%nat -> char_at (Some l) (Z.of_nat i) = l !! i.
Proof.
  intros H. unfold char_at. rewrite bool_decide_eq_false_2 by lia.
  apply at_index_nat.
Qed.

Hypothesis A_fits : strlen A + 1 < 2^64.
Hypothesis B_fits : strlen B + 1 < 2^64.

Lemma setCell_spec (t : Table) (r c : nat) :
  shaped t (S (length A)) (S (length B)) ->
  (r < length A)%nat -> (c < length B)%nat ->
  load t (Z.of_nat (S r)) (Z.of_nat c) = Some (tableCell A B m s g (S r) c) ->
  load t (Z.of_nat r) (Z.of_nat (S c)) = Some (tableCell A B m s g r (S c)) ->
  load t (Z.of_nat r) (Z.of_nat c) = Some (tableCell A B m s g r c) ->
  exists t',
    setCell t (Z.of_nat (S r)) (Z.of_nat (S c)) (Some A) (Some B) m s g = Some t' /\
    shaped t' (S (length A)) (S (length B)) /\
    load t' (Z.of_nat (S r)) (Z.of_nat (S c)) = Some (tableCell A B m s g (S r) (S c)) /\
    forall r' c' : nat, (r', c') <> (S r, S c) ->
      load t' (Z.of_nat r') (Z.of_nat c') = load t (Z.of_nat r') (Z.of_nat c').
Proof.
  intros Hsh Hr Hc Hleft Habove Hdiag. unfold strlen in *.
  assert (Hpr : size_sub (Z.of_nat (S r)) 1 = Z.of_nat r)
    by (apply size_pred_nat; lia).
  assert (Hpc : size_sub (Z.of_nat (S c)) 1 = Z.of_nat c)
    by (apply size_pred_nat; lia).
  unfold setCell, calByLeft, calByAbove, calByDiagonal, getScore. simpl fst. simpl snd.
  destruct (lookup_lt_is_Some_2 A r Hr) as [a Ha].
  destruct (lookup_lt_is_Some_2 B c Hc) as [b Hb].
  rewrite Hpr, Hpc, Hleft, Habove, Hdiag, !char_at_nat, Ha, Hb by done.
  cbn [fmap option_fmap option_map mbind option_bind].
  rewrite !tableCell_score.
  assert (Hd : (if bool_decide (a = b)
                then Some (int_add (tableScore A B m s g r c) m)
                else Some (int_add (tableScore A B m s g r c) s))
               = Some (diagonalScoreAt A B m s g r c)).
  { unfold diagonalScoreAt, pairScore. rewrite Ha, Hb.
    destruct (decide (a = b)) as [->|Hne].
    - now rewrite !bool_decide_eq_true_2.
    - rewrite !bool_decide_eq_false_2; [done | congruence | done]. }
  rewrite Hd. cbn [mbind option_bind]. unfold initializeCell. simpl fst. simpl snd.
  change (mkCell _ _ _) with (tableCell A B m s g (S r) (S c)).
  apply store_spec; [done | lia | lia].
Qed.

Lemma fillTable_spec (t : Table) (seq1 seq2 : Sequence) :
  shaped t (S (length A)) (S (length B)) ->
  seqVal seq1 = Some A -> seqLen seq1 = strlen A ->
  seqVal seq2 = Some B -> seqLen seq2 = strlen B ->
  exists t', fillTable t seq1 seq2 m s g = Some t' /\
    shaped t' (S (length A)) (S (length B)) /\
    forall r c : nat, (r <= length A)%nat -> (c <= length B)%nat ->
      load t' (Z.of_nat r) (Z.of_nat c) = Some (tableCell A B m s g r c).
Proof.
  intros Hsh HA HlA HB HlB. unfold fillTable, getSeqLen, getSeqVal.
  rewrite HA, HB, HlA, HlB. unfold strlen in *.
  rewrite !size_succ_nat by done.
  destruct (initializeTable_spec t (length A) (length B) g Hsh)
    as (t0 & Hinit & Hsh0 & Hcol & Hrow).
  rewrite Hinit. simpl.
  set (done_before (r c : nat) (r' c' : nat) :=
         (r' = O \/ c' = O \/ r' <= r \/ (r' = S r /\ c' <= c))%nat).
  set (Inv (r c : nat) (u : Table) :=
         shaped u (S (length A)) (S (length B)) /\
         forall r' c' : nat, (r' <= length A)%nat -> (c' <= length B)%nat ->
           done_before r c r' c' ->
           load u (Z.of_nat r') (Z.of_nat c') = Some (tableCell A B m s g r' c')).
  destruct (for_loop_invariant (fun k u => Inv k O u)
    (fun r u => for_range 1 (Z.of_nat (S (length B)))
       (fun c u => setCell u r c (Some A) (Some B) m s g) u)
    1 (length A) t0) as (t1 & Hloop & Hsh1 & Hall).
  { split; [done|]. intros r' c' Hr' Hc' Hd.
    assert (r' = O \/ c' = O) as [-> | ->] by (unfold done_before in Hd; lia).
    - rewrite tableCell_row0. now apply Hrow.
    - rewrite tableCell_col0. now apply Hcol. }
  { intros k u Hk HInv. unfold for_range.
    replace (Z.to_nat (Z.of_nat (S (length B)) - 1)) with (length B) by lia.
    replace (1 + Z.of_nat k) with (Z.of_nat (S k)) by lia.
    destruct (for_loop_invariant (fun j u => Inv k j u)
      (fun c u => setCell u (Z.of_nat (S k)) c (Some A) (Some B) m s g)
      1 (length B) u) as (u1 & Hin & Hsh' & Hall').
    { exact HInv. }
    { intros j v Hj [Hshv Hv].
      replace (1 + Z.of_nat j) with (Z.of_nat (S j)) by lia.
      destruct (setCell_spec v k j Hshv Hk Hj) as (v' & Hset & Hshv' & Hld & Hfr).
      - apply Hv; [lia | lia | unfold done_before; lia].
      - apply Hv; [lia | lia | unfold done_before; lia].
      - apply Hv; [lia | lia | unfold done_before; lia].
      - exists v'. split; [exact Hset|]. split; [done|].
        intros r' c' Hr' Hc' Hd.
        destruct (decide ((r', c') = (S k, S j))) as [Heq|Hne].
        + injection Heq as -> ->. exact Hld.
        + rewrite Hfr by done. apply Hv; [done | done |].
          unfold done_before in *.
          assert (~ (r' = S k /\ c' = S j)) by (intros [-> ->]; congruence).
          lia. }
    exists u1. split; [exact Hin|]. split; [done|].
    intros r' c' Hr' Hc' Hd. apply Hall'; [done | done |].
    unfold done_before in *. lia. }
  unfold for_range at 1.
  replace (Z.to_nat (Z.of_nat (S (length A)) - 1)) with (length A) by lia.
  rewrite Hloop. exists t1. split; [done|]. split; [done|].
  intros r c Hr Hc. apply Hall; [done | done |]. unfold done_before. lia.
Qed.

End Fill.

(** ** The choice of the source *)

Lemma chooseSource_cases (row col l a d : Z) :
  let mx := TERNARY_MAX l a d in
  (mx = d /\
   chooseSource row col mx l a d = (Some (size_sub row 1, size_sub col 1), "D"%char)) \/
  (mx <> d /\ mx = l /\
   chooseSource row col mx l a d = (Some (row, size_sub col 1), "L"%char)) \/
  (mx <> d /\ mx <> l /\ mx = a /\
   chooseSource row col mx l a d = (Some (size_sub row 1, col), "A"%char)).
Proof.
  intros mx. unfold chooseSource.
  destruct (decide (mx = d)) as [Hd|Hd].
  { left. now rewrite bool_decide_eq_true_2. }
  right. rewrite bool_decide_eq_false_2 by done.
  destruct (decide (mx = l)) as [Hl|Hl].
  { left. now rewrite bool_decide_eq_true_2. }
  right. rewrite bool_decide_eq_false_2 by done.
  assert (mx = a) as Ha by (destruct (TERNARY_MAX_cases l a d) as [?|[?|?]]; done).
  now rewrite bool_decide_eq_true_2.
Qed.

(** ** The backtrace on a filled table *)

Section Walk.
Variables (A B : list ascii) (m s g : Z).
Variable t : Table.
Variable stale : Z -> list ascii * list ascii.

Hypothesis A_fits : strlen A + 1 < 2^64.
Hypothesis B_fits : strlen B + 1 < 2^64.
Hypothesis t_filled : forall r c : nat, (r <= length A)%nat -> (c <= length B)%nat ->
  load t (Z.of_nat r) (Z.of_nat c) = Some (tableCell A B m s g r c).

Lemma walk_step_boundary (r c : nat) (w : Walk) :
  (r <= length A)%nat -> (c <= length B)%nat -> (r = O \/ c = O) ->
  walk_step t (Some A) (Some B) stale (Z.of_nat r, Z.of_nat c) w
  = Some (mkWalk None (strcat (stale (idx w)).1 (seq1Add w))
                 (strcat (stale (idx w)).2 (seq2Add w))
                 (cur_i w) (cur_j w) (idx w + 1)).
Proof.
  intros Hr Hc H0. unfold walk_step, getSourceChar, getSource. simpl fst. simpl snd.
  rewrite t_filled by done.
  assert (tableCell A B m s g r c = mkCell None NUL (tableScore A B m s g r c)) as ->
    by (destruct H0 as [-> | ->]; [done | now destruct r]).
  reflexivity.
Qed.

Lemma walk_step_interior (r c : nat) (w : Walk) :
  (r < length A)%nat -> (c < length B)%nat ->
  cur_i w = Z.of_nat r -> cur_j w = Z.of_nat c ->
  exists (r' c' : nat) (w' : Walk),
    walk_step t (Some A) (Some B) stale (Z.of_nat (S r), Z.of_nat (S c)) w = Some w' /\
    currCell w' = Some (Z.of_nat r', Z.of_nat c') /\
    cur_i w' = size_sub (Z.of_nat r') 1 /\
    cur_j w' = size_sub (Z.of_nat c') 1 /\
    (r' <= S r)%nat /\ (c' <= S c)%nat /\ (r' + c' < S r + S c)%nat /\
    length (seq1Add w') = S (length (seq1Add w)) /\
    length (seq2Add w') = S (length (seq2Add w)).
Proof.
  intros Hr Hc Hi Hj. unfold strlen in *.
  assert (Hpr : size_sub (Z.of_nat (S r)) 1 = Z.of_nat r)
    by (apply size_pred_nat; lia).
  assert (Hpc : size_sub (Z.of_nat (S c)) 1 = Z.of_nat c)
    by (apply size_pred_nat; lia).
  destruct (lookup_lt_is_Some_2 A r Hr) as [a Ha].
  destruct (lookup_lt_is_Some_2 B c Hc) as [b Hb].
  unfold walk_step, getSourceChar, getSource. simpl fst. simpl snd.
  rewrite t_filled by lia. unfold tableCell.
  rewrite tableScore_interior.
  destruct (chooseSource_cases (Z.of_nat (S r)) (Z.of_nat (S c))
              (leftScoreAt A B m s g r c) (aboveScoreAt A B m s g r c)
              (diagonalScoreAt A B m s g r c))
    as [[_ ->] | [(_ & _ & ->) | (_ & _ & _ & ->)]];
    cbn [fst snd sourceChar sourceCell fmap option_fmap option_map mbind option_bind];
    unfold analyzeSourceChar; rewrite ?Hi, ?Hj, ?Hpr, ?Hpc.
  - rewrite bool_decide_eq_true_2 by done.
    rewrite !char_at_nat, Ha, Hb by done.
    cbn [mbind option_bind]. exists r, c. eexists. split; [reflexivity|].
    simpl. repeat split; lia.
  - rewrite bool_decide_eq_false_2 by done.
    rewrite bool_decide_eq_true_2 by done.
    rewrite !char_at_nat, Hb by done.
    cbn [mbind option_bind]. exists (S r), c. eexists. split; [reflexivity|].
    simpl. rewrite Hpr. repeat split; lia.
  - rewrite bool_decide_eq_false_2 by done.
    rewrite bool_decide_eq_false_2 by done.
    rewrite bool_decide_eq_true_2 by done.
    rewrite !char_at_nat, Ha by done.
    cbn [mbind option_bind]. exists r, (S c). eexists. split; [reflexivity|].
    simpl. rewrite Hpc. repeat split; lia.
Qed.

Lemma walk_loop_ends (fuel : nat) : forall (r c : nat) (w : Walk),
  (r <= length A)%nat -> (c <= length B)%nat -> (r + c < fuel)%nat ->
  currCell w = Some (Z.of_nat r, Z.of_nat c) ->
  cur_i w = size_sub (Z.of_nat r) 1 -> cur_j w = size_sub (Z.of_nat c) 1 ->
  exists w', walk_loop fuel t (Some A) (Some B) stale w = Some w' /\
             currCell w' = None.
Proof.
  induction fuel as [|fuel IH]; intros r c w Hr Hc Hf Hcur Hi Hj; [lia|].
  simpl. rewrite Hcur.
  destruct (decide (r = O \/ c = O)) as [H0|Hin].
  - rewrite walk_step_boundary by done. cbn [mbind option_bind].
    eexists. split; [now destruct fuel | reflexivity].
  - destruct r as [|r]; [tauto|]. destruct c as [|c]; [tauto|].
    unfold strlen in *.
    rewrite size_pred_nat in Hi by lia. rewrite size_pred_nat in Hj by lia.
    destruct (walk_step_interior r c w) as
      (r' & c' & w1 & Hstep & Hcur1 & Hi1 & Hj1 & Hr' & Hc' & Hlt & _);
      [lia | lia | done | done |].
    rewrite Hstep. cbn [mbind option_bind].
    apply (IH r' c' w1); try done; lia.
Qed.

End Walk.

(** ** What [compareSequences] returns *)

(** On sequences that hold their strings the call has a result, and its
    score is the one of the last cell of the filled table. *)
Lemma compareSequences_spec (heap : Heap) (seq1 seq2 : Sequence)
    (A B : list ascii) (m s g : Z) :
  holds seq1 A -> holds seq2 B ->
  exists alignment,
    compareSequences heap seq1 seq2 m s g
    = Some (tableScore A B m s g (length A) (length B), alignment).
Proof.
  intros (HA & HlA & HfA) (HB & HlB & HfB).
  unfold compareSequences, getSeqLen. rewrite HlA, HlB. unfold strlen in *.
  rewrite !size_succ_nat by done.
  destruct (fillTable_spec A B m s g HfA HfB
              (createTable (stale_cells heap) (Z.of_nat (S (length A)))
                 (Z.of_nat (S (length B)))) seq1 seq2)
    as (t & Hfill & Hsh & Hcells); try done.
  { apply createTable_shaped. }
  rewrite Hfill. cbn [mbind option_bind].
  rewrite !size_pred_nat by done.
  unfold getScore. simpl fst. simpl snd. rewrite Hcells by done.
  cbn [fmap option_fmap option_map mbind option_bind]. rewrite tableCell_score.
  unfold calAlignment, getSeqVal. rewrite HA, HB.
  destruct (walk_loop_ends A B m s g t (stale_strings heap) HfA HfB Hcells
              (walk_fuel (Z.of_nat (S (length A))) (Z.of_nat (S (length B))))
              (length A) (length B)
              (walk_start seq1 seq2 (Z.of_nat (S (length A))) (Z.of_nat (S (length B)))))
    as (w & Hw & _); try done.
  - unfold walk_fuel. nia.
  - unfold walk_start. simpl. now rewrite !size_pred_nat.
  - unfold walk_start, getSeqLen. simpl. now rewrite HlA.
  - unfold walk_start, getSeqLen. simpl. now rewrite HlB.
  - rewrite Hw. cbn [mbind option_bind]. eauto.
Qed.

(** ** The candidates of an interior cell, read back from the filled table *)

Section Filled.
Variables (A B : list ascii) (m s g : Z).
Variable t : Table.

Hypothesis A_fits : strlen A + 1 < 2^64.
Hypothesis B_fits : strlen B + 1 < 2^64.
Hypothesis t_filled : forall r c : nat, (r <= length A)%nat -> (c <= length B)%nat ->
  load t (Z.of_nat r) (Z.of_nat c) = Some (tableCell A B m s g r c).

Lemma candidates_filled (r c : nat) :
  (r < length A)%nat -> (c < length B)%nat ->
  calByLeft t (Z.of_nat (S r)) (Z.of_nat (S c)) g = Some (leftScoreAt A B m s g r c) /\
  calByAbove t (Z.of_nat (S r)) (Z.of_nat (S c)) g = Some (aboveScoreAt A B m s g r c) /\
  calByDiagonal t (Z.of_nat (S r)) (Z.of_nat (S c)) (Some A) (Some B) m s
  = Some (diagonalScoreAt A B m s g r c).
Proof.
  intros Hr Hc. unfold strlen in *.
  assert (Hpr : size_sub (Z.of_nat (S r)) 1 = Z.of_nat r)
    by (apply size_pred_nat; lia).
  assert (Hpc : size_sub (Z.of_nat (S c)) 1 = Z.of_nat c)
    by (apply size_pred_nat; lia).
  destruct (lookup_lt_is_Some_2 A r Hr) as [a Ha].
  destruct (lookup_lt_is_Some_2 B c Hc) as [b Hb].
  unfold calByLeft, calByAbove, calByDiagonal, getScore. simpl fst. simpl snd.
  rewrite Hpr, Hpc, !t_filled, !char_at_nat, Ha, Hb by lia.
  cbn [fmap option_fmap option_map mbind option_bind].
  rewrite !tableCell_score. split; [done|]. split; [done|].
  unfold diagonalScoreAt, pairScore. rewrite Ha, Hb.
  destruct (decide (a = b)) as [->|Hne].
  - now rewrite !bool_decide_eq_true_2.
  - rewrite !bool_decide_eq_false_2; [done | congruence | done].
Qed.

Lemma interior_cell_filled (r c : nat) :
  let mx := TERNARY_MAX (leftScoreAt A B m s g r c) (aboveScoreAt A B m s g r c)
              (diagonalScoreAt A B m s g r c) in
  let src := chooseSource (Z.of_nat (S r)) (Z.of_nat (S c)) mx
               (leftScoreAt A B m s g r c) (aboveScoreAt A B m s g r c)
               (diagonalScoreAt A B m s g r c) in
  (r < length A)%nat -> (c < length B)%nat ->
  load t (Z.of_nat (S r)) (Z.of_nat (S c)) = Some (mkCell src.1 src.2 mx).
Proof. intros mx src Hr Hc. rewrite t_filled by lia. reflexivity. Qed.

End Filled.

(** ** Symmetry of the scores *)

Lemma pairScore_sym (A B : list ascii) (m s : Z) (r c : nat) :
  pairScore A B m s r c = pairScore B A m s c r.
Proof.
  unfold pairScore. destruct (decide (A !! r = B !! c)) as [H|H].
  - now rewrite !bool_decide_eq_true_2.
  - now rewrite !bool_decide_eq_false_2.
Qed.

Lemma tableScore_sym (A B : list ascii) (m s g : Z) (r c : nat) :
  tableScore A B m s g r c = tableScore B A m s g c r.
Proof.
  revert c. induction r as [|r IHr]; intros c.
  - destruct c; reflexivity.
  - induction c as [|c IHc]; [reflexivity|].
    rewrite !tableScore_interior.
    unfold leftScoreAt, aboveScoreAt, diagonalScoreAt.
    rewrite IHc, <- !IHr, (pairScore_sym A B).
    apply TERNARY_MAX_swap.
Qed.

(** ** Alignments, one column at a time *)

Lemma firstRow_snoc al col : firstRow (al ++ [col]) = firstRow al ++ firstSymbol col.
Proof. unfold firstRow. rewrite bind_app. simpl. now rewrite app_nil_r. Qed.

Lemma secondRow_snoc al col : secondRow (al ++ [col]) = secondRow al ++ secondSymbol col.
Proof. unfold secondRow. rewrite bind_app. simpl. now rewrite app_nil_r. Qed.

Lemma alignmentScore_snoc m s g al col :
  alignmentScore m s g (al ++ [col]) = alignmentScore m s g al + columnScore m s g col.
Proof. induction al as [|c al IH]; simpl; [lia|]. rewrite IH. lia. Qed.

Lemma snoc_take {X} (l : list X) (A : list X) (x : X) (r : nat) :
  (r <= length A)%nat -> l ++ [x] = take r A ->
  exists r', r = S r' /\ take r' A = l /\ A !! r' = Some x.
Proof.
  intros Hr H.
  assert (Hlen : r = S (length l)).
  { apply (f_equal length) in H. rewrite length_app, length_take in H. simpl in H. lia. }
  exists (length l). split; [done|].
  destruct (lookup_lt_is_Some_2 A (length l)) as [y Hy]; [lia|].
  rewrite Hlen, (take_S_r _ _ _ Hy) in H.
  apply app_inj_tail in H as [H1 H2]. split; congruence.
Qed.

Lemma nil_take {X} (A : list X) (r : nat) :
  (r <= length A)%nat -> [] = take r A -> r = O.
Proof.
  intros Hr H. apply (f_equal length) in H. rewrite length_take in H. simpl in H. lia.
Qed.

Section Optimal.
Variables (A B : list ascii) (m s g : Z).

Lemma idealScore_interior r c :
  idealScore A B m s g (S r) (S c)
  = Z.max (Z.max (idealScore A B m s g (S r) c + g) (idealScore A B m s g r (S c) + g))
          (idealScore A B m s g r c + pairScore A B m s r c).
Proof. reflexivity. Qed.

Lemma idealScore_row0 c : idealScore A B m s g 0 c = Z.of_nat c * g.
Proof. reflexivity. Qed.

Lemma idealScore_col0 r : idealScore A B m s g r 0 = Z.of_nat r * g.
Proof. destruct r; reflexivity. Qed.

Lemma idealScore_above r c : idealScore A B m s g r c + g <= idealScore A B m s g (S r) c.
Proof.
  destruct c as [|c].
  - rewrite !idealScore_col0. lia.
  - rewrite idealScore_interior. lia.
Qed.

Lemma idealScore_left r c : idealScore A B m s g r c + g <= idealScore A B m s g r (S c).
Proof.
  destruct r as [|r].
  - rewrite !idealScore_row0. lia.
  - rewrite idealScore_interior. lia.
Qed.

Lemma idealScore_diagonal r c :
  idealScore A B m s g r c + pairScore A B m s r c <= idealScore A B m s g (S r) (S c).
Proof. rewrite idealScore_interior. lia. Qed.

Lemma pairScore_symbols r c a b :
  A !! r = Some a -> B !! c = Some b ->
  pairScore A B m s r c = columnScore m s g (Both a b).
Proof.
  intros Ha Hb. unfold pairScore, columnScore. rewrite Ha, Hb.
  destruct (decide (a = b)) as [->|Hne].
  - now rewrite !bool_decide_eq_true_2.
  - rewrite !bool_decide_eq_false_2; [done | done | congruence].
Qed.

(** No alignment of the prefixes scores more than the recurrence. *)
Lemma idealScore_upper (al : list Column) : forall r c : nat,
  (r <= length A)%nat -> (c <= length B)%nat ->
  aligns al (take r A) (take c B) ->
  alignmentScore m s g al <= idealScore A B m s g r c.
Proof.
  induction al as [|col al IH] using rev_ind; intros r c Hr Hc [H1 H2].
  - apply nil_take in H1; [|done]. apply nil_take in H2; [|done]. subst. simpl. lia.
  - rewrite firstRow_snoc in H1. rewrite secondRow_snoc in H2.
    rewrite alignmentScore_snoc.
    destruct col as [a b | a | b]; simpl in H1, H2.
    + apply snoc_take in H1 as (r' & -> & H1 & Ha); [|done].
      apply snoc_take in H2 as (c' & -> & H2 & Hb); [|done].
      rewrite <- (pairScore_symbols r' c' a b Ha Hb).
      assert (alignmentScore m s g al <= idealScore A B m s g r' c')
        by (apply IH; [lia | lia | now split]).
      pose proof (idealScore_diagonal r' c'). lia.
    + apply snoc_take in H1 as (r' & -> & H1 & Ha); [|done].
      rewrite app_nil_r in H2.
      assert (alignmentScore m s g al <= idealScore A B m s g r' c)
        by (apply IH; [lia | lia | now split]).
      pose proof (idealScore_above r' c). cbn [columnScore]. lia.
    + apply snoc_take in H2 as (c' & -> & H2 & Hb); [|done].
      rewrite app_nil_r in H1.
      assert (alignmentScore m s g al <= idealScore A B m s g r c')
        by (apply IH; [lia | lia | now split]).
      pose proof (idealScore_left r c'). cbn [columnScore]. lia.
Qed.

(** Some alignment of the prefixes has the score of the recurrence. *)
Lemma idealScore_attained (r : nat) : forall c : nat,
  (r <= length A)%nat -> (c <= length B)%nat ->
  exists al, aligns al (take r A) (take c B) /\
             alignmentScore m s g al = idealScore A B m s g r c.
Proof.
  assert (Hrow : forall c : nat, (c <= length B)%nat ->
            exists al, aligns al [] (take c B) /\
                       alignmentScore m s g al = Z.of_nat c * g).
  { induction c as [|c IHc]; intros Hc.
    - exists []. rewrite take_0. repeat split.
    - destruct IHc as (al & [H1 H2] & Hs); [lia|].
      destruct (lookup_lt_is_Some_2 B c) as [b Hb]; [lia|].
      exists (al ++ [GapInFirst b]). split; [split|].
      + rewrite firstRow_snoc, H1. reflexivity.
      + rewrite secondRow_snoc, H2, (take_S_r _ _ _ Hb). reflexivity.
      + rewrite alignmentScore_snoc, Hs. simpl. lia. }
  induction r as [|r IHr]; intros c Hr Hc.
  - rewrite take_0, idealScore_row0. now apply Hrow.
  - destruct (lookup_lt_is_Some_2 A r) as [a Ha]; [lia|].
    induction c as [|c IHc].
    + destruct (IHr O) as (al & [H1 H2] & Hs); [lia | lia |].
      exists (al ++ [GapInSecond a]). split; [split|].
      * rewrite firstRow_snoc, H1, (take_S_r _ _ _ Ha). reflexivity.
      * rewrite secondRow_snoc, H2. cbn [firstSymbol secondSymbol]. now rewrite app_nil_r.
      * rewrite alignmentScore_snoc, Hs, !idealScore_col0. simpl. lia.
    + destruct (lookup_lt_is_Some_2 B c) as [b Hb]; [lia|].
      rewrite idealScore_interior.
      destruct (Z.max_spec (Z.max (idealScore A B m s g (S r) c + g) (idealScore A B m s g r (S c) + g))
                  (idealScore A B m s g r c + pairScore A B m s r c)) as [[_ ->] | [_ ->]].
      * destruct (IHr c) as (al & [H1 H2] & Hs); [lia | lia |].
        exists (al ++ [Both a b]). split; [split|].
        -- rewrite firstRow_snoc, H1, (take_S_r _ _ _ Ha). reflexivity.
        -- rewrite secondRow_snoc, H2, (take_S_r _ _ _ Hb). reflexivity.
        -- rewrite alignmentScore_snoc, Hs, (pairScore_symbols r c a b Ha Hb).
           reflexivity.
      * destruct (Z.max_spec (idealScore A B m s g (S r) c + g) (idealScore A B m s g r (S c) + g))
          as [[_ ->] | [_ ->]].
        -- destruct (IHr (S c)) as (al & [H1 H2] & Hs); [lia | lia |].
           exists (al ++ [GapInSecond a]). split; [split|].
           ++ rewrite firstRow_snoc, H1, (take_S_r _ _ _ Ha). reflexivity.
           ++ rewrite secondRow_snoc, H2. cbn [firstSymbol secondSymbol]. now rewrite app_nil_r.
           ++ rewrite alignmentScore_snoc, Hs. reflexivity.
        -- destruct IHc as (al & [H1 H2] & Hs); [lia|].
           exists (al ++ [GapInFirst b]). split; [split|].
           ++ rewrite firstRow_snoc, H1. cbn [firstSymbol secondSymbol]. now rewrite app_nil_r.
           ++ rewrite secondRow_snoc, H2, (take_S_r _ _ _ Hb). reflexivity.
           ++ rewrite alignmentScore_snoc, Hs. reflexivity.
Qed.

Lemma idealScore_optimal :
  optimalScore A B m s g (idealScore A B m s g (length A) (length B)).
Proof.
  split.
  - destruct (idealScore_attained (length A) (length B)) as (al & Hal & Hs);
      [lia | lia |].
    rewrite !firstn_all in Hal. eauto.
  - intros al Hal. apply idealScore_upper; [lia | lia |]. now rewrite !firstn_all.
Qed.

End Optimal.

(** ** When the table arithmetic does not overflow *)

Lemma boundary_exact (k : nat) (g : Z) :
  Z.abs (Z.of_nat k * g) <= INT_MAX ->
  int_mul (int_wrap (Z.of_nat k)) g = Z.of_nat k * g.
Proof.
  unfold INT_MAX, int_mul. intros H.
  destruct (decide (g = 0)) as [->|Hg].
  - now rewrite !Z.mul_0_r.
  - assert (Z.of_nat k <= Z.abs (Z.of_nat k * g)) by nia.
    rewrite (int_wrap_small (Z.of_nat k)) by lia.
    apply int_wrap_small. lia.
Qed.

Section Exact.
Variables (A B : list ascii) (m s g K : Z).
Hypothesis m_bound : Z.abs m <= K.
Hypothesis s_bound : Z.abs s <= K.
Hypothesis g_bound : Z.abs g <= K.

Lemma pairScore_bound r c : Z.abs (pairScore A B m s r c) <= K.
Proof. unfold pairScore. case_bool_decide; lia. Qed.

Lemma idealScore_bound (r c : nat) :
  Z.abs (idealScore A B m s g r c) <= Z.of_nat (r + c) * K.
Proof.
  revert c. induction r as [|r IHr]; intros c.
  - rewrite idealScore_row0. simpl. nia.
  - induction c as [|c IHc].
    + rewrite idealScore_col0. nia.
    + rewrite idealScore_interior.
      pose proof (IHr c). pose proof (IHr (S c)).
      pose proof (pairScore_bound r c).
      replace (Z.of_nat (S r + S c)) with (Z.of_nat (r + c) + 2) by lia.
      replace (Z.of_nat (S r + c)) with (Z.of_nat (r + c) + 1) in IHc by lia.
      replace (Z.of_nat (r + S c)) with (Z.of_nat (r + c) + 1) in * by lia.
      lia.
Qed.

Lemma tableScore_exact (r c : nat) :
  Z.of_nat (r + c) * K <= INT_MAX ->
  tableScore A B m s g r c = idealScore A B m s g r c.
Proof.
  revert c. induction r as [|r IHr]; intros c Hb.
  - simpl. apply boundary_exact. simpl in Hb. nia.
  - induction c as [|c IHc].
    + rewrite idealScore_col0. apply boundary_exact. nia.
    + rewrite tableScore_interior, idealScore_interior, TERNARY_MAX_spec.
      unfold leftScoreAt, aboveScoreAt, diagonalScoreAt, int_add.
      assert (0 <= K) by lia.
      rewrite IHc, (IHr c), (IHr (S c)) by nia.
      pose proof (idealScore_bound r c). pose proof (idealScore_bound r (S c)).
      pose proof (idealScore_bound (S r) c). pose proof (pairScore_bound r c).
      unfold INT_MAX in *.
      replace (Z.of_nat (S r + S c)) with (Z.of_nat (r + c) + 2) in * by lia.
      replace (Z.of_nat (S r + c)) with (Z.of_nat (r + c) + 1) in * by lia.
      replace (Z.of_nat (r + S c)) with (Z.of_nat (r + c) + 1) in * by lia.
      rewrite !int_wrap_small by lia. reflexivity.
Qed.

End Exact.

(** ** Records built by the parser on a zeroed block *)

Lemma record_holds (val : string) :
  strlen (list_ascii_of_string val) + 1 < 2^64 ->
  holds (record val) (list_ascii_of_string val).
Proof.
  intros H. unfold holds, record, parseRecord. simpl. repeat split; [|done].
  unfold size_add. rewrite size_wrap_small; [done | unfold strlen in *; lia].
Qed.

Lemma zeroedHeap_short : shortStale zeroedHeap.
Proof. intros k. cbn. lia. Qed.

Lemma usedHeap_short : shortStale usedHeap.
Proof. intros k. cbn. case_bool_decide; cbn; lia. Qed.

(** * The claims *)

(** C1 (as amended): when (m + n) * max(|M|, |S|, |G|) <= INT_MAX, the score
    that [compareSequences] reports, read from Cell(m,n) of the filled table,
    is the optimal global alignment score of A and B: some alignment has it
    and no alignment has more. *)
Theorem compareSequences_score_optimal (heap : Heap) (seq1 seq2 : Sequence)
    (A B : list ascii) (m s g : Z) :
  holds seq1 A -> holds seq2 B ->
  (strlen A + strlen B) * Z.max (Z.abs m) (Z.max (Z.abs s) (Z.abs g)) <= INT_MAX ->
  exists sc alignment,
    compareSequences heap seq1 seq2 m s g = Some (sc, alignment) /\
    optimalScore A B m s g sc.
Proof.
  intros H1 H2 Hb.
  destruct (compareSequences_spec heap seq1 seq2 A B m s g H1 H2) as [al Hal].
  exists (tableScore A B m s g (length A) (length B)), al. split; [done|].
  rewrite (tableScore_exact A B m s g (Z.max (Z.abs m) (Z.max (Z.abs s) (Z.abs g))));
    try lia.
  - apply idealScore_optimal.
  - unfold strlen in Hb. now rewrite Nat2Z.inj_add.
Qed.

Lemma compareSequences_score_optimal_witness :
  holds (record "GCATGCU") (list_ascii_of_string "GCATGCU") /\
  holds (record "GATTACA") (list_ascii_of_string "GATTACA") /\
  exists sc alignment,
    compareSequences zeroedHeap (record "GCATGCU") (record "GATTACA") 1 (-1) (-1)
    = Some (sc, alignment) /\
    optimalScore (list_ascii_of_string "GCATGCU") (list_ascii_of_string "GATTACA")
      1 (-1) (-1) sc.
Proof.
  assert (H1 : holds (record "GCATGCU") (list_ascii_of_string "GCATGCU"))
    by (apply record_holds; vm_compute; reflexivity).
  assert (H2 : holds (record "GATTACA") (list_ascii_of_string "GATTACA"))
    by (apply record_holds; vm_compute; reflexivity).
  split; [exact H1|]. split; [exact H2|].
  apply (compareSequences_score_optimal zeroedHeap _ _ _ _ 1 (-1) (-1) H1 H2).
  vm_compute. discriminate.
Defined.

(** C1 (as stated) fails: for A = B = "AA" with M = 2147483647, S = G = 0 the
    reported score is 2147483647, and the alignment AA/AA scores
    4294967294. *)
Lemma compareSequences_score_overflow :
  exists alignment,
    compareSequences zeroedHeap (record "AA") (record "AA") 2147483647 0 0
    = Some (2147483647, alignment) /\
    ~ optimalScore (list_ascii_of_string "AA") (list_ascii_of_string "AA")
        2147483647 0 0 2147483647.
Proof.
  eexists. split; [vm_compute; reflexivity|].
  intros [_ Hup].
  specialize (Hup [Both "A"%char "A"%char; Both "A"%char "A"%char]).
  assert (aligns [Both "A"%char "A"%char; Both "A"%char "A"%char]
            (list_ascii_of_string "AA") (list_ascii_of_string "AA"))
    as Hal by (split; reflexivity).
  specialize (Hup Hal). vm_compute in Hup. now apply Hup.
Qed.

(** C2: for A = "AA", B = "A", M = 2, S = -1, G = -2 the reported score is 0,
    and on every heap the two strings returned are what the last two fresh
    blocks held followed by "A" and "A": the walk goes from Cell(2,1) to
    Cell(1,0), which has no source, and ends there.  On a zeroed heap the
    result is "A" / "A", not "AA" / "-A". *)
Theorem compareSequences_AA_A (heap : Heap) :
  compareSequences heap (record "AA") (record "A") 2 (-1) (-2)
  = Some (0, createAlignment 3
               ((stale_strings heap 2).1 ++ ["A"%char])
               ((stale_strings heap 2).2 ++ ["A"%char])) /\
  compareSequences zeroedHeap (record "AA") (record "A") 2 (-1) (-2)
  = Some (0, ["A"; "010"; "A"; "010"]%char) /\
  createAlignment 3 (list_ascii_of_string "AA") (list_ascii_of_string "-A")
  <> ["A"; "010"; "A"; "010"]%char.
Proof.
  split; [|split].
  - destruct heap as [cells strings]. vm_compute.
    destruct (strings 2) as [u1 u2]. reflexivity.
  - vm_compute. reflexivity.
  - vm_compute. discriminate.
Qed.

(** What [initializeTable] does store, for sequences of lengths m and n:
    Cell(0,0) has score 0 and no origin; every first-column Cell(i,0),
    i in 1..m, has the score (int)i * G, a null source and the tag 0; every
    first-row Cell(0,j), j in 1..n, has the score (int)j * G, a null source
    and the tag 0. *)
Theorem initializeTable_cells (stale : nat -> nat -> Cell) (m n : nat) (g : Z)
    (i j : nat) :
  (1 <= i <= m)%nat -> (1 <= j <= n)%nat ->
  exists t,
    initializeTable (createTable stale (Z.of_nat (S m)) (Z.of_nat (S n)))
      (Z.of_nat (S m)) (Z.of_nat (S n)) g = Some t /\
    load t 0 0 = Some (mkCell None NUL 0) /\
    load t (Z.of_nat i) 0 = Some (mkCell None NUL (int_mul (int_wrap (Z.of_nat i)) g)) /\
    load t 0 (Z.of_nat j) = Some (mkCell None NUL (int_mul (int_wrap (Z.of_nat j)) g)).
Proof.
  intros Hi Hj.
  destruct (initializeTable_spec
              (createTable stale (Z.of_nat (S m)) (Z.of_nat (S n))) m n g)
    as (t & Hinit & _ & Hcol & Hrow).
  { apply createTable_shaped. }
  exists t. split; [exact Hinit|]. split; [|split].
  - apply (Hcol O). lia.
  - apply Hcol. lia.
  - apply Hrow. lia.
Qed.

Lemma initializeTable_cells_witness :
  (1 <= 2 <= 2)%nat /\ (1 <= 1 <= 1)%nat /\
  exists t,
    initializeTable (createTable (stale_cells zeroedHeap) 3 2) 3 2 (-2) = Some t /\
    load t 0 0 = Some (mkCell None NUL 0) /\
    load t 2 0 = Some (mkCell None NUL (-4)) /\
    load t 0 1 = Some (mkCell None NUL (-2)).
Proof.
  split; [lia|]. split; [lia|].
  apply (initializeTable_cells (stale_cells zeroedHeap) 2 1 (-2) 2 1); lia.
Defined.

(** C3: for m = n = 1 and G = -1 the first-column Cell(1,0) and the
    first-row Cell(0,1) have the score G, but the tag 0 and a null source
    after [initializeTable], not the origins FromAbove ('A') and FromLeft
    ('L'): [initializeTable] hands [initializeCell] a null source and the tag
    0 for every cell of the first row and the first column. *)
Lemma initializeTable_no_origin :
  exists t,
    initializeTable (createTable (stale_cells zeroedHeap) 2 2) 2 2 (-1) = Some t /\
    load t 1 0 = Some (mkCell None NUL (-1)) /\
    load t 0 1 = Some (mkCell None NUL (-1)) /\
    getSourceChar t (1, 0) <> Some "A"%char /\
    getSourceChar t (0, 1) <> Some "L"%char.
Proof.
  eexists. split; [vm_compute; reflexivity|].
  repeat split; try (vm_compute; discriminate).
Qed.

(** C4: for A = "AA", B = "A", M = 2, S = -1, G = -2 on a zeroed heap the
    walk goes from Cell(2,1) by a diagonal step to Cell(1,0), which has no
    source, and stops there and not at Cell(0,0); each string has received
    one character, while m + (FromLeft steps) = 2 and
    n + (FromAbove steps) = 1. *)
Theorem calAlignment_stops_early :
  exists t w1 w2,
    fillTable (createTable (stale_cells zeroedHeap) 3 2) (record "AA") (record "A")
      2 (-1) (-2) = Some t /\
    getSourceChar t (2, 1) = Some "D"%char /\
    walk_step t (getSeqVal (record "AA")) (getSeqVal (record "A"))
      (stale_strings zeroedHeap) (2, 1) (walk_start (record "AA") (record "A") 3 2)
    = Some w1 /\
    currCell w1 = Some (1, 0) /\
    getSource t (1, 0) = Some None /\
    walk_step t (getSeqVal (record "AA")) (getSeqVal (record "A"))
      (stale_strings zeroedHeap) (1, 0) w1 = Some w2 /\
    walk_loop (walk_fuel 3 2) t (getSeqVal (record "AA")) (getSeqVal (record "A"))
      (stale_strings zeroedHeap) (walk_start (record "AA") (record "A") 3 2)
    = Some w2 /\
    currCell w2 = None /\
    length (seq1Add w2) = 1%nat /\ length (seq2Add w2) = 1%nat /\
    getSeqLen (record "AA") = 2 /\ getSeqLen (record "A") = 1.
Proof.
  do 3 eexists. split; [vm_compute; reflexivity|].
  split; [vm_compute; reflexivity|].
  split; [vm_compute; reflexivity|].
  repeat split; vm_compute; reflexivity.
Qed.

(** C5: in the table filled for A and B, every interior cell (i in 1..m,
    j in 1..n) holds the three-way maximum of the candidates computed from
    its neighbours, with the origin Diagonal when that maximum equals the
    diagonal candidate, else FromLeft when it equals the from-left candidate,
    else FromAbove. *)
Theorem setCell_origin_rule (stale : nat -> nat -> Cell) (seq1 seq2 : Sequence)
    (A B : list ascii) (m s g : Z) (i j : nat) :
  holds seq1 A -> holds seq2 B ->
  (1 <= i <= length A)%nat -> (1 <= j <= length B)%nat ->
  exists t cell leftScore aboveScore diagonalScore,
    fillTable (createTable stale (strlen A + 1) (strlen B + 1)) seq1 seq2 m s g
    = Some t /\
    load t (Z.of_nat i) (Z.of_nat j) = Some cell /\
    calByLeft t (Z.of_nat i) (Z.of_nat j) g = Some leftScore /\
    calByAbove t (Z.of_nat i) (Z.of_nat j) g = Some aboveScore /\
    calByDiagonal t (Z.of_nat i) (Z.of_nat j) (Some A) (Some B) m s
    = Some diagonalScore /\
    score cell = Z.max (Z.max leftScore aboveScore) diagonalScore /\
    (sourceChar cell, sourceCell cell)
    = if decide (score cell = diagonalScore)
      then ("D"%char, Some (Z.of_nat i - 1, Z.of_nat j - 1))
      else if decide (score cell = leftScore)
      then ("L"%char, Some (Z.of_nat i, Z.of_nat j - 1))
      else ("A"%char, Some (Z.of_nat i - 1, Z.of_nat j)).
Proof.
  intros (HA & HlA & HfA) (HB & HlB & HfB) Hi Hj.
  destruct i as [|r]; [lia|]. destruct j as [|c]; [lia|].
  destruct (fillTable_spec A B m s g HfA HfB
              (createTable stale (strlen A + 1) (strlen B + 1)) seq1 seq2)
    as (t & Hfill & _ & Hcells); try done.
  { unfold strlen.
    replace (Z.of_nat (length A) + 1) with (Z.of_nat (S (length A))) by lia.
    replace (Z.of_nat (length B) + 1) with (Z.of_nat (S (length B))) by lia.
    apply createTable_shaped. }
  destruct (candidates_filled A B m s g t HfA HfB Hcells r c) as (Hl & Ha & Hd);
    [lia | lia |].
  exists t. eexists. exists (leftScoreAt A B m s g r c), (aboveScoreAt A B m s g r c),
    (diagonalScoreAt A B m s g r c).
  split; [exact Hfill|].
  split; [apply (interior_cell_filled A B m s g t Hcells r c); lia|].
  split; [exact Hl|]. split; [exact Ha|]. split; [exact Hd|].
  split; [cbn [score]; apply TERNARY_MAX_spec|].
  cbn [score sourceChar sourceCell]. unfold strlen in *.
  destruct (chooseSource_cases (Z.of_nat (S r)) (Z.of_nat (S c))
              (leftScoreAt A B m s g r c) (aboveScoreAt A B m s g r c)
              (diagonalScoreAt A B m s g r c))
    as [[H1 ->] | [(H1 & H2 & ->) | (H1 & H2 & H3 & ->)]];
    cbn [fst snd]; rewrite ?size_pred_nat by lia.
  - rewrite decide_True by done. repeat f_equal; lia.
  - rewrite decide_False, decide_True by done. repeat f_equal; lia.
  - rewrite !decide_False by done. repeat f_equal; lia.
Qed.

Lemma setCell_origin_rule_witness :
  holds (record "AA") (list_ascii_of_string "AA") /\
  holds (record "A") (list_ascii_of_string "A") /\
  (1 <= 2 <= length (list_ascii_of_string "AA"))%nat /\
  (1 <= 1 <= length (list_ascii_of_string "A"))%nat /\
  exists t cell leftScore aboveScore diagonalScore,
    fillTable (createTable (stale_cells zeroedHeap) 3 2) (record "AA") (record "A")
      2 (-1) (-2) = Some t /\
    load t 2 1 = Some cell /\
    calByLeft t 2 1 (-2) = Some leftScore /\
    calByAbove t 2 1 (-2) = Some aboveScore /\
    calByDiagonal t 2 1 (Some (list_ascii_of_string "AA"))
      (Some (list_ascii_of_string "A")) 2 (-1) = Some diagonalScore /\
    score cell = Z.max (Z.max leftScore aboveScore) diagonalScore /\
    (sourceChar cell, sourceCell cell)
    = if decide (score cell = diagonalScore) then ("D"%char, Some (1, 0))
      else if decide (score cell = leftScore) then ("L"%char, Some (2, 0))
      else ("A"%char, Some (1, 1)).
Proof.
  assert (H1 : holds (record "AA") (list_ascii_of_string "AA"))
    by (apply record_holds; vm_compute; reflexivity).
  assert (H2 : holds (record "A") (list_ascii_of_string "A"))
    by (apply record_holds; vm_compute; reflexivity).
  split; [exact H1|]. split; [exact H2|].
  split; [simpl; lia|]. split; [simpl; lia|].
  apply (setCell_origin_rule (stale_cells zeroedHeap) _ _ _ _ 2 (-1) (-2) 2 1 H1 H2);
    simpl; lia.
Defined.

(** C6: for A = "AA", B = "A", M = 2, S = -1, G = -2 on a zeroed heap the two
    strings at the end of [calAlignment] are "A" and "A"; without its gap
    characters the first one is "A", not A = "AA". *)
Theorem calAlignment_drops_symbols :
  exists t,
    fillTable (createTable (stale_cells zeroedHeap) 3 2) (record "AA") (record "A")
      2 (-1) (-2) = Some t /\
    calAlignment_strings (walk_fuel 3 2) (stale_strings zeroedHeap)
      (record "AA") (record "A") t 3 2
    = Some (["A"%char], ["A"%char]) /\
    getSeqVal (record "AA") = Some ["A"%char; "A"%char] /\
    dropGaps ["A"%char] <> ["A"%char; "A"%char].
Proof.
  eexists. split; [vm_compute; reflexivity|].
  split; [vm_compute; reflexivity|].
  split; [reflexivity|]. vm_compute. discriminate.
Qed.

(** X13: a run of the loop body of [calAlignment] on a cell tagged 'D', 'L'
    or 'A', with both cursors inside the strings, puts exactly one character
    in front of each string: the symbol under the cursor or the gap
    character. *)
Lemma walk_step_one_character (t : Table) (A B : list ascii)
    (stale : Z -> list ascii * list ascii) (cell : Z * Z) (w w' : Walk) :
  walk_step t (Some A) (Some B) stale cell w = Some w' ->
  getSourceChar t cell = Some "D"%char \/ getSourceChar t cell = Some "L"%char \/
  getSourceChar t cell = Some "A"%char ->
  0 <= cur_i w < strlen A -> 0 <= cur_j w < strlen B ->
  exists a b,
    seq1Add w' = a :: seq1Add w /\ seq2Add w' = b :: seq2Add w /\
    (a = SPACE_CHAR \/ A !! Z.to_nat (cur_i w) = Some a) /\
    (b = SPACE_CHAR \/ B !! Z.to_nat (cur_j w) = Some b).
Proof.
  unfold walk_step, strlen. intros Hstep Htag Hi Hj.
  destruct (getSourceChar t cell) as [tag|]; [|discriminate].
  cbn [mbind option_bind] in Hstep.
  destruct (lookup_lt_is_Some_2 A (Z.to_nat (cur_i w))) as [a Ha]; [lia|].
  destruct (lookup_lt_is_Some_2 B (Z.to_nat (cur_j w))) as [b Hb]; [lia|].
  assert (Hca : char_at (Some A) (cur_i w) = Some a).
  { unfold char_at, at_index. rewrite bool_decide_eq_false_2 by lia.
    now rewrite bool_decide_eq_true_2 by lia. }
  assert (Hcb : char_at (Some B) (cur_j w) = Some b).
  { unfold char_at, at_index. rewrite bool_decide_eq_false_2 by lia.
    now rewrite bool_decide_eq_true_2 by lia. }
  unfold analyzeSourceChar in Hstep. rewrite Hca, Hcb in Hstep.
  destruct (getSource t cell) as [next|];
    [|destruct Htag as [[= ->] | [[= ->] | [= ->]]]; discriminate].
  destruct Htag as [[= ->] | [[= ->] | [= ->]]];
    cbn in Hstep; injection Hstep as <-; cbn [seq1Add seq2Add strcat app].
  - exists a, b. auto.
  - exists SPACE_CHAR, b. auto.
  - exists a, SPACE_CHAR. auto.
Qed.

(** The run on the cell with no source writes nothing in the fresh blocks:
    the strings grow by what the blocks held. *)
Lemma walk_step_no_character (t : Table) (seq1Val seq2Val : option (list ascii))
    (stale : Z -> list ascii * list ascii) (cell : Z * Z) (w w' : Walk) :
  walk_step t seq1Val seq2Val stale cell w = Some w' ->
  getSourceChar t cell = Some NUL ->
  seq1Add w' = (stale (idx w)).1 ++ seq1Add w /\
  seq2Add w' = (stale (idx w)).2 ++ seq2Add w.
Proof.
  unfold walk_step. intros Hstep Htag. rewrite Htag in Hstep.
  cbn [mbind option_bind] in Hstep. unfold analyzeSourceChar in Hstep.
  rewrite !bool_decide_eq_false_2 in Hstep by (vm_compute; discriminate).
  cbn [mbind option_bind] in Hstep.
  destruct (getSource t cell); [|discriminate].
  injection Hstep as <-. done.
Qed.

(** C7: for A = "A", B = "A", M = 1, S = -1, G = -1 on a heap where the
    block allocated for the first string in the last run of the loop starts
    with 'x', 0 and the block for the second one with 0, [calAlignment] ends
    with the strings "xA" and "A", of lengths 2 and 1. *)
Theorem calAlignment_unequal_lengths :
  exists t s1 s2,
    fillTable (createTable (stale_cells usedHeap) 2 2) (record "A") (record "A")
      1 (-1) (-1) = Some t /\
    calAlignment_strings (walk_fuel 2 2) (stale_strings usedHeap)
      (record "A") (record "A") t 2 2 = Some (s1, s2) /\
    s1 = ["x"%char; "A"%char] /\ s2 = ["A"%char] /\
    length s1 <> length s2.
Proof.
  do 3 eexists. split; [vm_compute; reflexivity|].
  split; [vm_compute; reflexivity|].
  split; [reflexivity|]. split; [reflexivity|]. simpl. lia.
Qed.

(** C8: the score reported for the pair (A, B) is the score reported for the
    pair (B, A), for all parameters and on all heaps. *)
Theorem compareSequences_score_symmetric (heap1 heap2 : Heap) (seq1 seq2 : Sequence)
    (A B : list ascii) (m s g : Z) :
  holds seq1 A -> holds seq2 B ->
  exists sc alignment1 alignment2,
    compareSequences heap1 seq1 seq2 m s g = Some (sc, alignment1) /\
    compareSequences heap2 seq2 seq1 m s g = Some (sc, alignment2).
Proof.
  intros H1 H2.
  destruct (compareSequences_spec heap1 seq1 seq2 A B m s g H1 H2) as [al1 Hal1].
  destruct (compareSequences_spec heap2 seq2 seq1 B A m s g H2 H1) as [al2 Hal2].
  exists (tableScore A B m s g (length A) (length B)), al1, al2.
  split; [exact Hal1|]. now rewrite tableScore_sym.
Qed.

Lemma compareSequences_score_symmetric_witness :
  holds (record "GCATGCU") (list_ascii_of_string "GCATGCU") /\
  holds (record "GA") (list_ascii_of_string "GA") /\
  exists sc alignment1 alignment2,
    compareSequences zeroedHeap (record "GCATGCU") (record "GA") 1 (-1) (-1)
    = Some (sc, alignment1) /\
    compareSequences usedHeap (record "GA") (record "GCATGCU") 1 (-1) (-1)
    = Some (sc, alignment2).
Proof.
  assert (H1 : holds (record "GCATGCU") (list_ascii_of_string "GCATGCU"))
    by (apply record_holds; vm_compute; reflexivity).
  assert (H2 : holds (record "GA") (list_ascii_of_string "GA"))
    by (apply record_holds; vm_compute; reflexivity).
  split; [exact H1|]. split; [exact H2|].
  apply (compareSequences_score_symmetric zeroedHeap usedHeap _ _ _ _ 1 (-1) (-1) H1 H2).
Defined.

(** The length field of a record with one value line: what the block held
    plus the length of the line. *)
Lemma parseRecord_seqLen (stale : Z) (name val : list ascii) :
  seqVal (parseRecord stale name [val]) = Some val /\
  seqLen (parseRecord stale name [val]) = size_add stale (strlen val).
Proof. split; reflexivity. Qed.

(** C9: a record parsed into a block whose [seqLen] bytes held 1, with the
    single value line "A", stores the string "A" of length 1 and the length
    field 2. *)
Theorem parseRecord_stale_length :
  seqVal (parseRecord 1 [] [["A"%char]]) = Some ["A"%char] /\
  seqLen (parseRecord 1 [] [["A"%char]]) = 2 /\
  seqLen (parseRecord 1 [] [["A"%char]]) <> strlen ["A"%char].
Proof. split; [reflexivity|]. split; [reflexivity|]. vm_compute. discriminate. Qed.

(** C10: the three-way maximum is one of its three arguments, so for an
    interior cell [setCell] always picks a source and one of the tags 'D',
    'L', 'A'; in the table filled for A and B no interior cell is left with
    a null source or the tag 0. *)
Theorem setCell_source_assigned (stale : nat -> nat -> Cell) (seq1 seq2 : Sequence)
    (A B : list ascii) (m s g : Z) (i j : nat) :
  holds seq1 A -> holds seq2 B ->
  (1 <= i <= length A)%nat -> (1 <= j <= length B)%nat ->
  (forall leftScore aboveScore diagonalScore : Z,
     let max := TERNARY_MAX leftScore aboveScore diagonalScore in
     (max = diagonalScore \/ max = leftScore \/ max = aboveScore) /\
     (chooseSource (Z.of_nat i) (Z.of_nat j) max leftScore aboveScore diagonalScore).1
       <> None /\
     (chooseSource (Z.of_nat i) (Z.of_nat j) max leftScore aboveScore diagonalScore).2
       ∈ ["D"%char; "L"%char; "A"%char]) /\
  exists t cell,
    fillTable (createTable stale (strlen A + 1) (strlen B + 1)) seq1 seq2 m s g
    = Some t /\
    load t (Z.of_nat i) (Z.of_nat j) = Some cell /\
    sourceCell cell <> None /\
    sourceChar cell ∈ ["D"%char; "L"%char; "A"%char].
Proof.
  intros (HA & HlA & HfA) (HB & HlB & HfB) Hi Hj.
  assert (Hchoice : forall row col l a d,
            (chooseSource row col (TERNARY_MAX l a d) l a d).1 <> None /\
            (chooseSource row col (TERNARY_MAX l a d) l a d).2
              ∈ ["D"%char; "L"%char; "A"%char]).
  { intros row col l a d.
    destruct (chooseSource_cases row col l a d)
      as [[_ ->] | [(_ & _ & ->) | (_ & _ & _ & ->)]]; cbn [fst snd];
      (split; [done | repeat constructor]). }
  split.
  { intros l a d mx. split; [|apply Hchoice].
    subst mx. destruct (TERNARY_MAX_cases l a d) as [?|[?|?]]; tauto. }
  destruct i as [|r]; [lia|]. destruct j as [|c]; [lia|].
  destruct (fillTable_spec A B m s g HfA HfB
              (createTable stale (strlen A + 1) (strlen B + 1)) seq1 seq2)
    as (t & Hfill & _ & Hcells); try done.
  { unfold strlen.
    replace (Z.of_nat (length A) + 1) with (Z.of_nat (S (length A))) by lia.
    replace (Z.of_nat (length B) + 1) with (Z.of_nat (S (length B))) by lia.
    apply createTable_shaped. }
  exists t. eexists. split; [exact Hfill|].
  split; [apply (interior_cell_filled A B m s g t Hcells r c); lia|].
  cbn [sourceCell sourceChar]. apply Hchoice.
Qed.

Lemma setCell_source_assigned_witness :
  holds (record "AA") (list_ascii_of_string "AA") /\
  holds (record "A") (list_ascii_of_string "A") /\
  (1 <= 2 <= length (list_ascii_of_string "AA"))%nat /\
  (1 <= 1 <= length (list_ascii_of_string "A"))%nat /\
  exists t cell,
    fillTable (createTable (stale_cells zeroedHeap) 3 2) (record "AA") (record "A")
      2 (-1) (-2) = Some t /\
    load t 2 1 = Some cell /\
    sourceCell cell <> None /\
    sourceChar cell ∈ ["D"%char; "L"%char; "A"%char].
Proof.
  assert (H1 : holds (record "AA") (list_ascii_of_string "AA"))
    by (apply record_holds; vm_compute; reflexivity).
  assert (H2 : holds (record "A") (list_ascii_of_string "A"))
    by (apply record_holds; vm_compute; reflexivity).
  split; [exact H1|]. split; [exact H2|].
  split; [simpl; lia|]. split; [simpl; lia|].
  apply (setCell_source_assigned (stale_cells zeroedHeap) _ _ _ _ 2 (-1) (-2) 2 1 H1 H2);
    simpl; lia.
Defined.

(** * Further properties *)

(** ** The backtrace follows the tags of the table *)

Lemma tableCell_tag_cases (A B : list ascii) (m s g : Z) (r c : nat) :
  Z.of_nat r + 1 < 2^64 -> Z.of_nat c + 1 < 2^64 ->
  let cell := tableCell A B m s g (S r) (S c) in
  (sourceChar cell = "D"%char /\ sourceCell cell = Some (Z.of_nat r, Z.of_nat c) /\
   tableScore A B m s g (S r) (S c) = diagonalScoreAt A B m s g r c) \/
  (sourceChar cell = "L"%char /\ sourceCell cell = Some (Z.of_nat (S r), Z.of_nat c) /\
   tableScore A B m s g (S r) (S c) = leftScoreAt A B m s g r c) \/
  (sourceChar cell = "A"%char /\ sourceCell cell = Some (Z.of_nat r, Z.of_nat (S c)) /\
   tableScore A B m s g (S r) (S c) = aboveScoreAt A B m s g r c).
Proof.
  intros Hr Hc cell. subst cell. unfold tableCell.
  rewrite tableScore_interior.
  destruct (chooseSource_cases (Z.of_nat (S r)) (Z.of_nat (S c))
              (leftScoreAt A B m s g r c) (aboveScoreAt A B m s g r c)
              (diagonalScoreAt A B m s g r c))
    as [[H1 ->] | [(_ & H1 & ->) | (_ & _ & H1 & ->)]];
    cbn [fst snd sourceChar sourceCell]; rewrite ?size_pred_nat by lia.
  - left. done.
  - right. left. done.
  - right. right. done.
Qed.

Section Trace.
Variables (A B : list ascii) (m s g : Z).
Variable t : Table.
Variable stale : Z -> list ascii * list ascii.

Hypothesis A_fits : strlen A + 1 < 2^64.
Hypothesis B_fits : strlen B + 1 < 2^64.
Hypothesis t_filled : forall r c : nat, (r <= length A)%nat -> (c <= length B)%nat ->
  load t (Z.of_nat r) (Z.of_nat c) = Some (tableCell A B m s g r c).

(** The loop of [calAlignment] started at [table[r][c]] puts in front of
    the two strings the columns of [traceback], and in front of them what
    the two blocks of its last run held. *)
Lemma walk_loop_traceback (fuel : nat) : forall (r c : nat) (w : Walk),
  (r <= length A)%nat -> (c <= length B)%nat -> (r + c < fuel)%nat ->
  currCell w = Some (Z.of_nat r, Z.of_nat c) ->
  cur_i w = size_sub (Z.of_nat r) 1 -> cur_j w = size_sub (Z.of_nat c) 1 ->
  let al := (traceback A B m s g fuel r c).1 in
  let last := idx w + Z.of_nat (length al) in
  exists i j,
    walk_loop fuel t (Some A) (Some B) stale w
    = Some (mkWalk None
              ((stale last).1 ++ (firstChar <$> al) ++ seq1Add w)
              ((stale last).2 ++ (secondChar <$> al) ++ seq2Add w)
              i j (last + 1)).
Proof.
  induction fuel as [|fuel IH]; intros r c w Hr Hc Hf Hcur Hi Hj; [lia|].
  cbn [walk_loop]. rewrite Hcur.
  destruct (decide (r = O \/ c = O)) as [H0|Hin].
  - rewrite walk_step_boundary with (m := m) (s := s) (g := g) by done.
    cbn [mbind option_bind].
    assert (traceback A B m s g (S fuel) r c = ([], (r, c))) as ->
      by (destruct H0 as [-> | ->]; [done | now destruct r]).
    cbn [fst length fmap list_fmap app]. rewrite Z.add_0_r.
    exists (cur_i w), (cur_j w). now destruct fuel.
  - destruct r as [|r]; [tauto|]. destruct c as [|c]; [tauto|].
    unfold strlen in *.
    rewrite size_pred_nat in Hi by lia. rewrite size_pred_nat in Hj by lia.
    destruct (lookup_lt_is_Some_2 A r) as [a Ha]; [lia|].
    destruct (lookup_lt_is_Some_2 B c) as [b Hb]; [lia|].
    cbn [traceback]. rewrite Ha, Hb.
    unfold walk_step, getSourceChar, getSource. cbn [fst snd].
    rewrite t_filled by lia.
    cbn [fmap option_fmap option_map mbind option_bind].
    unfold analyzeSourceChar. rewrite Hi, Hj.
    rewrite !char_at_nat, Ha, Hb by lia.
    destruct (tableCell_tag_cases A B m s g r c) as
      [(Htag & Hsrc & _) | [(Htag & Hsrc & _) | (Htag & Hsrc & _)]];
      [lia | lia | | |]; rewrite Htag, Hsrc.
    + rewrite !bool_decide_eq_true_2 by done. cbn [mbind option_bind fst snd].
      destruct (IH r c (mkWalk (Some (Z.of_nat r, Z.of_nat c))
                          (strcat [a] (seq1Add w)) (strcat [b] (seq2Add w))
                          (size_sub (Z.of_nat r) 1) (size_sub (Z.of_nat c) 1) (idx w + 1)))
        as (i & j & Hrest); try done; try lia.
      exists i, j. rewrite Hrest. cbn [seq1Add seq2Add idx].
      rewrite length_app, !fmap_app. cbn [length fmap list_fmap firstChar secondChar].
      unfold strcat. rewrite <- !app_assoc. cbn [app].
      replace (idx w + 1 + Z.of_nat (length (traceback A B m s g fuel r c).1))
        with (idx w + Z.of_nat (length (traceback A B m s g fuel r c).1 + 1)) by lia.
      reflexivity.
    + rewrite (bool_decide_eq_false_2 ("L"%char = "D"%char)) by done.
      rewrite !bool_decide_eq_true_2 by done. cbn [mbind option_bind fst snd].
      destruct (IH (S r) c (mkWalk (Some (Z.of_nat (S r), Z.of_nat c))
                          (strcat [SPACE_CHAR] (seq1Add w)) (strcat [b] (seq2Add w))
                          (Z.of_nat r) (size_sub (Z.of_nat c) 1) (idx w + 1)))
        as (i & j & Hrest); try done; try lia.
      { cbn [cur_i]. now rewrite size_pred_nat by lia. }
      exists i, j. rewrite Hrest. cbn [seq1Add seq2Add idx].
      rewrite length_app, !fmap_app. cbn [length fmap list_fmap firstChar secondChar].
      unfold strcat. rewrite <- !app_assoc. cbn [app].
      replace (idx w + 1 + Z.of_nat (length (traceback A B m s g fuel (S r) c).1))
        with (idx w + Z.of_nat (length (traceback A B m s g fuel (S r) c).1 + 1)) by lia.
      reflexivity.
    + rewrite (bool_decide_eq_false_2 ("A"%char = "D"%char)) by done.
      rewrite (bool_decide_eq_false_2 ("A"%char = "L"%char)) by done.
      rewrite !bool_decide_eq_true_2 by done. cbn [mbind option_bind fst snd].
      destruct (IH r (S c) (mkWalk (Some (Z.of_nat r, Z.of_nat (S c)))
                          (strcat [a] (seq1Add w)) (strcat [SPACE_CHAR] (seq2Add w))
                          (size_sub (Z.of_nat r) 1) (Z.of_nat c) (idx w + 1)))
        as (i & j & Hrest); try done; try lia.
      { cbn [cur_j]. now rewrite size_pred_nat by lia. }
      exists i, j. rewrite Hrest. cbn [seq1Add seq2Add idx].
      rewrite length_app, !fmap_app. cbn [length fmap list_fmap firstChar secondChar].
      unfold strcat. rewrite <- !app_assoc. cbn [app].
      replace (idx w + 1 + Z.of_nat (length (traceback A B m s g fuel r (S c)).1))
        with (idx w + Z.of_nat (length (traceback A B m s g fuel r (S c)).1 + 1)) by lia.
      reflexivity.
Qed.

End Trace.

(** ** Where the tags lead *)

(** The tags followed from [table[r][c]] end in the first row or the first
    column, and the columns met spell the symbols of [A] between the row
    where they end and [r], and those of [B] between the column where
    they end and [c]. *)
Lemma traceback_spells (A B : list ascii) (m s g : Z) (fuel : nat) :
  forall r c : nat,
  (r <= length A)%nat -> (c <= length B)%nat -> (r + c < fuel)%nat ->
  let al := (traceback A B m s g fuel r c).1 in
  let r0 := (traceback A B m s g fuel r c).2.1 in
  let c0 := (traceback A B m s g fuel r c).2.2 in
  (r0 = O \/ c0 = O) /\ (r0 <= r)%nat /\ (c0 <= c)%nat /\
  take r A = take r0 A ++ firstRow al /\
  take c B = take c0 B ++ secondRow al /\
  (length al <= (r - r0) + (c - c0))%nat.
Proof.
  induction fuel as [|fuel IH]; intros r c Hr Hc Hf; [lia|].
  destruct r as [|r].
  { cbn [traceback fst snd]. unfold firstRow, secondRow. cbn [mbind list_bind length].
    rewrite !app_nil_r. repeat split; auto; lia. }
  destruct c as [|c].
  { cbn [traceback fst snd]. unfold firstRow, secondRow. cbn [mbind list_bind length].
    rewrite !app_nil_r. repeat split; auto; lia. }
  destruct (lookup_lt_is_Some_2 A r) as [a Ha]; [lia|].
  destruct (lookup_lt_is_Some_2 B c) as [b Hb]; [lia|].
  cbn [traceback]. rewrite Ha, Hb.
  repeat case_bool_decide; cbn [fst snd].
  - destruct (IH r c) as (Hz & Hr0 & Hc0 & E1 & E2 & Hl); [lia | lia | lia |].
    rewrite firstRow_snoc, secondRow_snoc, length_app. cbn [firstSymbol secondSymbol length].
    rewrite (take_S_r _ _ _ Ha), (take_S_r _ _ _ Hb), E1, E2, <- !app_assoc.
    repeat split; auto; lia.
  - destruct (IH (S r) c) as (Hz & Hr0 & Hc0 & E1 & E2 & Hl); [lia | lia | lia |].
    rewrite firstRow_snoc, secondRow_snoc, length_app. cbn [firstSymbol secondSymbol length].
    rewrite (take_S_r _ _ _ Hb), E2, <- !app_assoc, app_nil_r.
    repeat split; auto; lia.
  - destruct (IH r (S c)) as (Hz & Hr0 & Hc0 & E1 & E2 & Hl); [lia | lia | lia |].
    rewrite firstRow_snoc, secondRow_snoc, length_app. cbn [firstSymbol secondSymbol length].
    rewrite (take_S_r _ _ _ Ha), E1, <- !app_assoc, app_nil_r.
    repeat split; auto; lia.
Qed.

Lemma take_app_drop_eq {X} (l : list X) (k : nat) (rest : list X) :
  l = take k l ++ rest -> rest = drop k l.
Proof.
  intros H. rewrite <- (take_drop k l) in H at 1.
  now apply app_inv_head in H.
Qed.

Section TraceScore.
Variables (A B : list ascii) (m s g K : Z).
Hypothesis A_fits : strlen A + 1 < 2^64.
Hypothesis B_fits : strlen B + 1 < 2^64.
Hypothesis m_bound : Z.abs m <= K.
Hypothesis s_bound : Z.abs s <= K.
Hypothesis g_bound : Z.abs g <= K.

(** Without overflow, the score of a cell is the score of the cell where
    its tags end plus the scores of the columns met on the way. *)
Lemma traceback_score (fuel : nat) : forall r c : nat,
  (r <= length A)%nat -> (c <= length B)%nat -> (r + c < fuel)%nat ->
  Z.of_nat (r + c) * K <= INT_MAX ->
  idealScore A B m s g r c
  = idealScore A B m s g (traceback A B m s g fuel r c).2.1
      (traceback A B m s g fuel r c).2.2
    + alignmentScore m s g (traceback A B m s g fuel r c).1.
Proof.
  induction fuel as [|fuel IH]; intros r c Hr Hc Hf Hb; [lia|].
  assert (0 <= K) by lia.
  destruct r as [|r]; [cbn; lia|].
  destruct c as [|c]; [cbn [traceback fst snd alignmentScore foldr]; lia|].
  destruct (lookup_lt_is_Some_2 A r) as [a Ha]; [lia|].
  destruct (lookup_lt_is_Some_2 B c) as [b Hb']; [lia|].
  pose proof (idealScore_bound A B m s g K m_bound s_bound g_bound r c) as Bd.
  pose proof (idealScore_bound A B m s g K m_bound s_bound g_bound (S r) c) as Bl.
  pose proof (idealScore_bound A B m s g K m_bound s_bound g_bound r (S c)) as Ba.
  pose proof (pairScore_bound A B m s g K m_bound s_bound r c) as Bp.
  assert (Hex : tableScore A B m s g (S r) (S c) = idealScore A B m s g (S r) (S c))
    by (apply (tableScore_exact A B m s g K); done).
  assert (Hexd : tableScore A B m s g r c = idealScore A B m s g r c)
    by (apply (tableScore_exact A B m s g K); try done; nia).
  assert (Hexl : tableScore A B m s g (S r) c = idealScore A B m s g (S r) c)
    by (apply (tableScore_exact A B m s g K); try done; nia).
  assert (Hexa : tableScore A B m s g r (S c) = idealScore A B m s g r (S c))
    by (apply (tableScore_exact A B m s g K); try done; nia).
  unfold INT_MAX in *.
  replace (Z.of_nat (S r + S c)) with (Z.of_nat (r + c) + 2) in * by lia.
  replace (Z.of_nat (S r + c)) with (Z.of_nat (r + c) + 1) in * by lia.
  replace (Z.of_nat (r + S c)) with (Z.of_nat (r + c) + 1) in * by lia.
  cbn [traceback]. rewrite Ha, Hb'.
  destruct (tableCell_tag_cases A B m s g r c) as
    [(Htag & _ & Hsc) | [(Htag & _ & Hsc) | (Htag & _ & Hsc)]];
    [unfold strlen in *; lia | unfold strlen in *; lia | | |];
    rewrite Htag; rewrite Hex in Hsc.
  - rewrite bool_decide_eq_true_2 by done. cbn [fst snd].
    rewrite alignmentScore_snoc, <- (pairScore_symbols A B m s g r c a b Ha Hb').
    unfold diagonalScoreAt, int_add in Hsc. rewrite Hexd, int_wrap_small in Hsc by lia.
    rewrite Hsc, (IH r c) by (try lia; nia). lia.
  - rewrite (bool_decide_eq_false_2 ("L"%char = "D"%char)) by done.
    rewrite bool_decide_eq_true_2 by done. cbn [fst snd].
    rewrite alignmentScore_snoc. cbn [columnScore].
    unfold leftScoreAt, int_add in Hsc. rewrite Hexl, int_wrap_small in Hsc by lia.
    rewrite Hsc, (IH (S r) c) by (try lia; nia). lia.
  - rewrite (bool_decide_eq_false_2 ("A"%char = "D"%char)) by done.
    rewrite (bool_decide_eq_false_2 ("A"%char = "L"%char)) by done. cbn [fst snd].
    rewrite alignmentScore_snoc. cbn [columnScore].
    unfold aboveScoreAt, int_add in Hsc. rewrite Hexa, int_wrap_small in Hsc by lia.
    rewrite Hsc, (IH r (S c)) by (try lia; nia). lia.
Qed.

End TraceScore.

(** ** What [compareSequences] returns, column by column *)

Lemma compareSequences_traceback (heap : Heap) (seq1 seq2 : Sequence)
    (A B : list ascii) (m s g : Z) :
  holds seq1 A -> holds seq2 B ->
  let al := (traceback A B m s g
               (walk_fuel (Z.of_nat (S (length A))) (Z.of_nat (S (length B))))
               (length A) (length B)).1 in
  let n := Z.of_nat (length al) in
  compareSequences heap seq1 seq2 m s g
  = Some (tableScore A B m s g (length A) (length B),
          createAlignment (n + 2)
            ((stale_strings heap (n + 1)).1 ++ (firstChar <$> al))
            ((stale_strings heap (n + 1)).2 ++ (secondChar <$> al))).
Proof.
  intros (HA & HlA & HfA) (HB & HlB & HfB) al n.
  unfold compareSequences, getSeqLen. rewrite HlA, HlB. unfold strlen in *.
  rewrite !size_succ_nat by done.
  destruct (fillTable_spec A B m s g HfA HfB
              (createTable (stale_cells heap) (Z.of_nat (S (length A)))
                 (Z.of_nat (S (length B)))) seq1 seq2)
    as (t & Hfill & Hsh & Hcells); try done.
  { apply createTable_shaped. }
  rewrite Hfill. cbn [mbind option_bind].
  rewrite !size_pred_nat by done.
  unfold getScore. simpl fst. simpl snd. rewrite Hcells by done.
  cbn [fmap option_fmap option_map mbind option_bind]. rewrite tableCell_score.
  unfold calAlignment, getSeqVal. rewrite HA, HB.
  destruct (walk_loop_traceback A B m s g t (stale_strings heap) HfA HfB Hcells
              (walk_fuel (Z.of_nat (S (length A))) (Z.of_nat (S (length B))))
              (length A) (length B)
              (walk_start seq1 seq2 (Z.of_nat (S (length A))) (Z.of_nat (S (length B)))))
    as (i & j & Hw); try done.
  - unfold walk_fuel. nia.
  - unfold walk_start. simpl. now rewrite !size_pred_nat.
  - unfold walk_start, getSeqLen. simpl. now rewrite HlA.
  - unfold walk_start, getSeqLen. simpl. now rewrite HlB.
  - rewrite Hw. cbn [mbind option_bind seq1Add seq2Add idx walk_start].
    rewrite !app_nil_r. fold al. fold n.
    replace (1 + n) with (n + 1) by lia. replace (n + 1 + 1) with (n + 2) by lia.
    reflexivity.
Qed.

Lemma alignmentScore_app m s g al1 al2 :
  alignmentScore m s g (al1 ++ al2)
  = alignmentScore m s g al1 + alignmentScore m s g al2.
Proof. induction al1 as [|col al1 IH]; simpl; [lia|]. rewrite IH. lia. Qed.

Lemma firstRow_app al1 al2 : firstRow (al1 ++ al2) = firstRow al1 ++ firstRow al2.
Proof. unfold firstRow. apply bind_app. Qed.

Lemma secondRow_app al1 al2 : secondRow (al1 ++ al2) = secondRow al1 ++ secondRow al2.
Proof. unfold secondRow. apply bind_app. Qed.

Lemma gaps_in_second (l : list ascii) (m s g : Z) :
  firstRow (GapInSecond <$> l) = l /\ secondRow (GapInSecond <$> l) = [] /\
  alignmentScore m s g (GapInSecond <$> l) = Z.of_nat (length l) * g.
Proof.
  induction l as [|a l (IH1 & IH2 & IH3)]; [now cbn|].
  split; [|split].
  - cbn. f_equal. exact IH1.
  - cbn. exact IH2.
  - change (g + alignmentScore m s g (GapInSecond <$> l)
            = Z.of_nat (S (length l)) * g). rewrite IH3. lia.
Qed.

Lemma gaps_in_first (l : list ascii) (m s g : Z) :
  firstRow (GapInFirst <$> l) = [] /\ secondRow (GapInFirst <$> l) = l /\
  alignmentScore m s g (GapInFirst <$> l) = Z.of_nat (length l) * g.
Proof.
  induction l as [|a l (IH1 & IH2 & IH3)]; [now cbn|].
  split; [|split].
  - cbn. exact IH1.
  - cbn. f_equal. exact IH2.
  - change (g + alignmentScore m s g (GapInFirst <$> l)
            = Z.of_nat (S (length l)) * g). rewrite IH3. lia.
Qed.

(** X1: on a heap whose fresh string blocks hold one character at most, and
    for all parameters, [compareSequences] returns, and the two strings it
    returns are what the two blocks of the last loop run held, followed by
    the two rows of a gapped alignment of a suffix of A with a suffix of B;
    one of the two suffixes is the whole sequence.  With [idx] the counter
    of the last run, each string and its terminator fit the [1 + idx] bytes
    of its block, and the alignment fits the [2 * (idx + 1) + 1] bytes that
    [createAlignment] allocates. *)
Theorem compareSequences_returns_suffix_alignment (heap : Heap)
    (seq1 seq2 : Sequence) (A B : list ascii) (m s g : Z) :
  holds seq1 A -> holds seq2 B -> shortStale heap ->
  exists sc al r0 c0 first second,
    let idx := Z.of_nat (length al) + 1 in
    first = (stale_strings heap idx).1 ++ (firstChar <$> al) /\
    second = (stale_strings heap idx).2 ++ (secondChar <$> al) /\
    compareSequences heap seq1 seq2 m s g
    = Some (sc, createAlignment (idx + 1) first second) /\
    (r0 = O \/ c0 = O) /\
    aligns al (drop r0 A) (drop c0 B) /\
    (length al <= length A + length B)%nat /\
    strlen first + 1 <= 1 + idx /\
    strlen second + 1 <= 1 + idx /\
    strlen (createAlignment (idx + 1) first second) + 1 <= 2 * (idx + 1) + 1.
Proof.
  intros H1 H2 Hshort.
  pose proof (compareSequences_traceback heap seq1 seq2 A B m s g H1 H2) as Hcmp.
  cbv zeta in Hcmp.
  set (fuel := walk_fuel (Z.of_nat (S (length A))) (Z.of_nat (S (length B)))) in *.
  destruct (traceback_spells A B m s g fuel (length A) (length B))
    as (Hz & Hr0 & Hc0 & E1 & E2 & Hl); [lia | lia | unfold fuel, walk_fuel; nia |].
  rewrite firstn_all in E1, E2.
  set (al := (traceback A B m s g fuel (length A) (length B)).1) in *.
  destruct (Hshort (Z.of_nat (length al) + 1)) as [Hs1 Hs2].
  eexists _, al, _, _, _, _. cbv zeta.
  split; [reflexivity|]. split; [reflexivity|]. split.
  { rewrite Hcmp. repeat f_equal; lia. }
  split; [exact Hz|]. split; [split; eapply take_app_drop_eq; eauto|].
  split; [lia|].
  unfold createAlignment, strcat, strlen, NEW_LINE.
  rewrite !length_app, !length_fmap. cbn [length]. lia.
Qed.

Lemma compareSequences_returns_suffix_alignment_witness :
  holds (record "AA") (list_ascii_of_string "AA") /\
  holds (record "A") (list_ascii_of_string "A") /\
  shortStale usedHeap /\
  exists sc al r0 c0 first second,
    let idx := Z.of_nat (length al) + 1 in
    first = (stale_strings usedHeap idx).1 ++ (firstChar <$> al) /\
    second = (stale_strings usedHeap idx).2 ++ (secondChar <$> al) /\
    compareSequences usedHeap (record "AA") (record "A") 2 (-1) (-2)
    = Some (sc, createAlignment (idx + 1) first second) /\
    (r0 = O \/ c0 = O) /\
    aligns al (drop r0 (list_ascii_of_string "AA")) (drop c0 (list_ascii_of_string "A")) /\
    (length al <= length (list_ascii_of_string "AA")
                  + length (list_ascii_of_string "A"))%nat /\
    strlen first + 1 <= 1 + idx /\
    strlen second + 1 <= 1 + idx /\
    strlen (createAlignment (idx + 1) first second) + 1 <= 2 * (idx + 1) + 1.
Proof.
  assert (H1 : holds (record "AA") (list_ascii_of_string "AA"))
    by (apply record_holds; vm_compute; reflexivity).
  assert (H2 : holds (record "A") (list_ascii_of_string "A"))
    by (apply record_holds; vm_compute; reflexivity).
  split; [exact H1|]. split; [exact H2|]. split; [exact usedHeap_short|].
  apply (compareSequences_returns_suffix_alignment usedHeap _ _ _ _ 2 (-1) (-2) H1 H2
           usedHeap_short).
Defined.

(** X2: when (m + n) * max(|M|, |S|, |G|) <= INT_MAX, on a heap whose fresh
    string blocks hold one character at most, the columns returned by
    [compareSequences], preceded by the symbols of the prefix that the
    backtrace leaves out, each over a gap, are a global alignment of A and B
    that has the reported score, and that score is optimal. *)
Theorem compareSequences_completed_alignment (heap : Heap)
    (seq1 seq2 : Sequence) (A B : list ascii) (m s g : Z) :
  holds seq1 A -> holds seq2 B -> shortStale heap ->
  (strlen A + strlen B) * Z.max (Z.abs m) (Z.max (Z.abs s) (Z.abs g)) <= INT_MAX ->
  exists sc al r0 c0,
    compareSequences heap seq1 seq2 m s g
    = Some (sc, createAlignment (Z.of_nat (length al) + 2)
                  ((stale_strings heap (Z.of_nat (length al) + 1)).1
                     ++ (firstChar <$> al))
                  ((stale_strings heap (Z.of_nat (length al) + 1)).2
                     ++ (secondChar <$> al))) /\
    aligns ((GapInSecond <$> take r0 A) ++ (GapInFirst <$> take c0 B) ++ al) A B /\
    alignmentScore m s g
      ((GapInSecond <$> take r0 A) ++ (GapInFirst <$> take c0 B) ++ al) = sc /\
    optimalScore A B m s g sc.
Proof.
  intros H1 H2 _ Hb.
  pose proof (compareSequences_traceback heap seq1 seq2 A B m s g H1 H2) as Hcmp.
  cbv zeta in Hcmp.
  destruct H1 as (_ & _ & HfA). destruct H2 as (_ & _ & HfB).
  set (K := Z.max (Z.abs m) (Z.max (Z.abs s) (Z.abs g))) in *.
  set (fuel := walk_fuel (Z.of_nat (S (length A))) (Z.of_nat (S (length B)))) in *.
  assert (Hbound : Z.of_nat (length A + length B) * K <= INT_MAX)
    by (unfold strlen in Hb; now rewrite Nat2Z.inj_add).
  destruct (traceback_spells A B m s g fuel (length A) (length B))
    as (Hz & Hr0 & Hc0 & E1 & E2 & Hl); [lia | lia | unfold fuel, walk_fuel; nia |].
  rewrite firstn_all in E1, E2.
  pose proof (traceback_score A B m s g K HfA HfB ltac:(lia) ltac:(lia) ltac:(lia)
                fuel (length A) (length B) ltac:(lia) ltac:(lia)
                ltac:(unfold fuel, walk_fuel; nia) Hbound) as Hsc.
  pose proof (tableScore_exact A B m s g K ltac:(lia) ltac:(lia) ltac:(lia)
                (length A) (length B) Hbound) as Hex.
  set (tr := traceback A B m s g fuel (length A) (length B)) in *.
  destruct (gaps_in_second (take tr.2.1 A) m s g) as (G1 & G2 & G3).
  destruct (gaps_in_first (take tr.2.2 B) m s g) as (F1 & F2 & F3).
  exists (tableScore A B m s g (length A) (length B)), tr.1, tr.2.1, tr.2.2.
  split; [exact Hcmp|]. split; [|split].
  - split.
    + rewrite !firstRow_app, G1, F1. cbn [app]. now symmetry.
    + rewrite !secondRow_app, G2, F2. cbn [app]. now symmetry.
  - rewrite !alignmentScore_app, G3, F3, Hex, Hsc, !length_take.
    assert (idealScore A B m s g tr.2.1 tr.2.2
            = Z.of_nat (tr.2.1 `min` length A) * g
              + Z.of_nat (tr.2.2 `min` length B) * g) as ->; [|lia].
    rewrite !Nat.min_l by lia.
    destruct Hz as [-> | ->].
    + rewrite idealScore_row0. lia.
    + rewrite idealScore_col0. lia.
  - rewrite Hex. apply idealScore_optimal.
Qed.

Lemma compareSequences_completed_alignment_witness :
  holds (record "AA") (list_ascii_of_string "AA") /\
  holds (record "A") (list_ascii_of_string "A") /\
  shortStale usedHeap /\
  exists sc al r0 c0,
    compareSequences usedHeap (record "AA") (record "A") 2 (-1) (-2)
    = Some (sc, createAlignment (Z.of_nat (length al) + 2)
                  ((stale_strings usedHeap (Z.of_nat (length al) + 1)).1
                     ++ (firstChar <$> al))
                  ((stale_strings usedHeap (Z.of_nat (length al) + 1)).2
                     ++ (secondChar <$> al))) /\
    aligns ((GapInSecond <$> take r0 (list_ascii_of_string "AA"))
              ++ (GapInFirst <$> take c0 (list_ascii_of_string "A")) ++ al)
      (list_ascii_of_string "AA") (list_ascii_of_string "A") /\
    alignmentScore 2 (-1) (-2)
      ((GapInSecond <$> take r0 (list_ascii_of_string "AA"))
         ++ (GapInFirst <$> take c0 (list_ascii_of_string "A")) ++ al) = sc /\
    optimalScore (list_ascii_of_string "AA") (list_ascii_of_string "A") 2 (-1) (-2) sc.
Proof.
  assert (H1 : holds (record "AA") (list_ascii_of_string "AA"))
    by (apply record_holds; vm_compute; reflexivity).
  assert (H2 : holds (record "A") (list_ascii_of_string "A"))
    by (apply record_holds; vm_compute; reflexivity).
  split; [exact H1|]. split; [exact H2|]. split; [exact usedHeap_short|].
  apply (compareSequences_completed_alignment usedHeap _ _ _ _ 2 (-1) (-2) H1 H2
           usedHeap_short).
  vm_compute. discriminate.
Defined.

(** ** A sequence against itself *)

Section Self.
Variables (A B : list ascii) (m s g : Z).
Hypothesis mismatch_le : s <= m.
Hypothesis gap_le : 2 * g <= m.

Lemma pairScore_le r c : pairScore A B m s r c <= m.
Proof. unfold pairScore. case_bool_decide; lia. Qed.

(** No cell scores more than matching every symbol of the shorter prefix
    and putting the rest over gaps. *)
Lemma idealScore_le (r c : nat) :
  ((r <= c)%nat ->
   idealScore A B m s g r c <= Z.of_nat r * m + (Z.of_nat c - Z.of_nat r) * g) /\
  ((c <= r)%nat ->
   idealScore A B m s g r c <= Z.of_nat c * m + (Z.of_nat r - Z.of_nat c) * g).
Proof.
  revert c. induction r as [|r IHr]; intros c.
  - rewrite idealScore_row0. split; intros; nia.
  - induction c as [|c IHc].
    + rewrite idealScore_col0. split; intros; nia.
    + rewrite idealScore_interior.
      pose proof (pairScore_le r c).
      destruct (IHr c) as [D1 D2]. destruct (IHr (S c)) as [U1 U2].
      destruct IHc as [L1 L2].
      split; intros Hle.
      * assert (idealScore A B m s g r c
                <= Z.of_nat r * m + (Z.of_nat c - Z.of_nat r) * g) by (apply D1; lia).
        assert (idealScore A B m s g r (S c)
                <= Z.of_nat r * m + (Z.of_nat (S c) - Z.of_nat r) * g) by (apply U1; lia).
        destruct (decide (r = c)) as [->|Hne].
        -- assert (idealScore A B m s g (S c) c
                   <= Z.of_nat c * m + (Z.of_nat (S c) - Z.of_nat c) * g)
             by (apply L2; lia).
           nia.
        -- assert (idealScore A B m s g (S r) c
                   <= Z.of_nat (S r) * m + (Z.of_nat c - Z.of_nat (S r)) * g)
             by (apply L1; lia).
           nia.
      * assert (idealScore A B m s g r c
                <= Z.of_nat c * m + (Z.of_nat r - Z.of_nat c) * g) by (apply D2; lia).
        assert (idealScore A B m s g (S r) c
                <= Z.of_nat c * m + (Z.of_nat (S r) - Z.of_nat c) * g) by (apply L2; lia).
        destruct (decide (r = c)) as [->|Hne].
        -- assert (idealScore A B m s g c (S c)
                   <= Z.of_nat c * m + (Z.of_nat (S c) - Z.of_nat c) * g)
             by (apply U1; lia).
           nia.
        -- assert (idealScore A B m s g r (S c)
                   <= Z.of_nat (S c) * m + (Z.of_nat r - Z.of_nat (S c)) * g)
             by (apply U2; lia).
           nia.
Qed.

End Self.

Section SelfDiagonal.
Variables (A : list ascii) (m s g : Z).
Hypothesis mismatch_le : s <= m.
Hypothesis gap_le : 2 * g <= m.

Lemma pairScore_same (i : nat) : pairScore A A m s i i = m.
Proof. unfold pairScore. now rewrite bool_decide_eq_true_2. Qed.

Lemma idealScore_self (i : nat) : idealScore A A m s g i i = Z.of_nat i * m.
Proof.
  induction i as [|i IH]; [reflexivity|].
  rewrite idealScore_interior, IH, pairScore_same.
  destruct (idealScore_le A A m s g mismatch_le gap_le (S i) i) as [_ L].
  destruct (idealScore_le A A m s g mismatch_le gap_le i (S i)) as [U _].
  specialize (L ltac:(lia)). specialize (U ltac:(lia)). nia.
Qed.

Hypothesis A_fits : strlen A + 1 < 2^64.
Hypothesis no_overflow :
  (strlen A + strlen A) * Z.max (Z.abs m) (Z.max (Z.abs s) (Z.abs g)) <= INT_MAX.

Lemma tableCell_self_tag (i : nat) :
  (i < length A)%nat -> sourceChar (tableCell A A m s g (S i) (S i)) = "D"%char.
Proof.
  intros Hi. unfold strlen in *.
  set (K := Z.max (Z.abs m) (Z.max (Z.abs s) (Z.abs g))) in *.
  assert (0 <= K) by lia.
  assert (Hdiag : tableScore A A m s g (S i) (S i) = diagonalScoreAt A A m s g i i).
  { rewrite (tableScore_exact A A m s g K) by (try lia; nia).
    unfold diagonalScoreAt, int_add.
    rewrite (tableScore_exact A A m s g K) by (try lia; nia).
    rewrite !idealScore_self, pairScore_same.
    rewrite int_wrap_small; [lia|].
    assert (Z.abs (Z.of_nat (S i) * m) <= Z.of_nat (S i) * K) by nia.
    unfold INT_MAX in *. nia. }
  unfold tableCell, chooseSource.
  now rewrite bool_decide_eq_true_2.
Qed.

Lemma traceback_self (fuel : nat) : forall i : nat,
  (i <= length A)%nat -> (i + i < fuel)%nat ->
  traceback A A m s g fuel i i = ((fun a => Both a a) <$> take i A, (O, O)).
Proof.
  induction fuel as [|fuel IH]; intros i Hi Hf; [lia|].
  destruct i as [|i]; [now rewrite take_0|].
  destruct (lookup_lt_is_Some_2 A i) as [a Ha]; [lia|].
  cbn [traceback]. rewrite Ha, tableCell_self_tag by lia.
  rewrite bool_decide_eq_true_2 by done.
  rewrite IH by lia. cbn [fst snd].
  now rewrite (take_S_r _ _ _ Ha), fmap_app.
Qed.

End SelfDiagonal.

(** X3: a sequence A of length n compared with itself, with
    mismatch <= match, 2 * gap <= match and 2 * n * max(|M|, |S|, |G|) <=
    INT_MAX, on a heap whose fresh string blocks hold one character at most,
    scores n times the match parameter, and the two strings returned are
    what the last two blocks held followed by the sequence itself, with no
    gap. *)
Theorem compareSequences_self (heap : Heap) (seq1 seq2 : Sequence)
    (A : list ascii) (m s g : Z) :
  holds seq1 A -> holds seq2 A -> shortStale heap ->
  s <= m -> 2 * g <= m ->
  (strlen A + strlen A) * Z.max (Z.abs m) (Z.max (Z.abs s) (Z.abs g)) <= INT_MAX ->
  compareSequences heap seq1 seq2 m s g
  = Some (strlen A * m,
          createAlignment (strlen A + 2)
            ((stale_strings heap (strlen A + 1)).1 ++ A)
            ((stale_strings heap (strlen A + 1)).2 ++ A)).
Proof.
  intros H1 H2 _ Hs Hg Hb.
  rewrite (compareSequences_traceback heap seq1 seq2 A A m s g H1 H2).
  destruct H1 as (_ & _ & HfA).
  rewrite (traceback_self A m s g Hs Hg HfA Hb) by (unfold walk_fuel; lia).
  cbn [fst]. rewrite firstn_all, length_fmap, <- !list_fmap_compose.
  rewrite (tableScore_exact A A m s g (Z.max (Z.abs m) (Z.max (Z.abs s) (Z.abs g))));
    try lia.
  - rewrite idealScore_self by done. unfold strlen.
    repeat f_equal; apply list_fmap_id.
  - unfold strlen in Hb. now rewrite Nat2Z.inj_add.
Qed.

Lemma compareSequences_self_witness :
  holds (record "GATTACA") (list_ascii_of_string "GATTACA") /\
  shortStale usedHeap /\
  1 <= 2 /\ 2 * (-1) <= 2 /\
  compareSequences usedHeap (record "GATTACA") (record "GATTACA") 2 1 (-1)
  = Some (14, createAlignment 9 (list_ascii_of_string "GATTACA")
                (list_ascii_of_string "GATTACA")).
Proof.
  assert (H1 : holds (record "GATTACA") (list_ascii_of_string "GATTACA"))
    by (apply record_holds; vm_compute; reflexivity).
  split; [exact H1|]. split; [exact usedHeap_short|]. split; [lia|]. split; [lia|].
  apply (compareSequences_self usedHeap _ _ _ 2 1 (-1) H1 H1 usedHeap_short);
    [lia | lia |].
  vm_compute. discriminate.
Defined.

(** ** The filled table and the heap *)

Lemma shaped_ext (t1 t2 : Table) (rows cols : nat) :
  shaped t1 rows cols -> shaped t2 rows cols ->
  (forall r c : nat, (r < rows)%nat -> (c < cols)%nat ->
     load t1 (Z.of_nat r) (Z.of_nat c) = load t2 (Z.of_nat r) (Z.of_nat c)) ->
  t1 = t2.
Proof.
  intros [Hl1 Hr1] [Hl2 Hr2] Hload. apply list_eq. intros r.
  destruct (decide (r < rows)%nat) as [Hr|Hr].
  - destruct (lookup_lt_is_Some_2 t1 r) as [row1 E1]; [lia|].
    destruct (lookup_lt_is_Some_2 t2 r) as [row2 E2]; [lia|].
    rewrite E1, E2. f_equal. apply list_eq. intros c.
    destruct (decide (c < cols)%nat) as [Hc|Hc].
    + specialize (Hload r c Hr Hc). rewrite !load_nat, E1, E2 in Hload. exact Hload.
    + rewrite !(proj2 (lookup_ge_None _ _)); [done | |].
      * rewrite (Hr2 _ _ E2). lia.
      * rewrite (Hr1 _ _ E1). lia.
  - rewrite !(proj2 (lookup_ge_None _ _)); [done | lia | lia].
Qed.

(** X4: [fillTable] writes every cell of the table: the table it leaves
    does not depend on what the blocks of the table held before. *)
Theorem fillTable_overwrites_table (seq1 seq2 : Sequence) (A B : list ascii)
    (m s g : Z) :
  holds seq1 A -> holds seq2 B ->
  exists t, forall stale : nat -> nat -> Cell,
    fillTable (createTable stale (strlen A + 1) (strlen B + 1)) seq1 seq2 m s g
    = Some t.
Proof.
  intros (HA & HlA & HfA) (HB & HlB & HfB).
  assert (Hshape : forall stale,
            shaped (createTable stale (strlen A + 1) (strlen B + 1))
              (S (length A)) (S (length B))).
  { intros stale. unfold strlen.
    replace (Z.of_nat (length A) + 1) with (Z.of_nat (S (length A))) by lia.
    replace (Z.of_nat (length B) + 1) with (Z.of_nat (S (length B))) by lia.
    apply createTable_shaped. }
  destruct (fillTable_spec A B m s g HfA HfB _ seq1 seq2
              (Hshape (fun _ _ => mkCell None NUL 0)) HA HlA HB HlB)
    as (t & _ & Hsh & Hcells).
  exists t. intros stale.
  destruct (fillTable_spec A B m s g HfA HfB _ seq1 seq2 (Hshape stale) HA HlA HB HlB)
    as (t' & Hfill & Hsh' & Hcells').
  rewrite Hfill. f_equal.
  apply (shaped_ext t' t (S (length A)) (S (length B))); try done.
  intros r c Hr Hc. rewrite Hcells, Hcells' by lia. reflexivity.
Qed.

Lemma fillTable_overwrites_table_witness :
  holds (record "AA") (list_ascii_of_string "AA") /\
  holds (record "A") (list_ascii_of_string "A") /\
  exists t, forall stale : nat -> nat -> Cell,
    fillTable (createTable stale 3 2) (record "AA") (record "A") 2 (-1) (-2) = Some t.
Proof.
  assert (H1 : holds (record "AA") (list_ascii_of_string "AA"))
    by (apply record_holds; vm_compute; reflexivity).
  assert (H2 : holds (record "A") (list_ascii_of_string "A"))
    by (apply record_holds; vm_compute; reflexivity).
  split; [exact H1|]. split; [exact H2|].
  apply (fillTable_overwrites_table _ _ _ _ 2 (-1) (-2) H1 H2).
Defined.

(** ** A sequence of length 0 *)

Lemma for_loop_skip {St} (body : Z -> St -> option St) (n : nat) (k : Z) (st : St) :
  (forall k st, body k st = Some st) -> for_loop n k body st = Some st.
Proof.
  intros Hbody. revert k. induction n as [|n IH]; intros k; [done|].
  simpl. rewrite Hbody. simpl. apply IH.
Qed.

Lemma walk_loop_boundary (t : Table) (seq1Val seq2Val : option (list ascii))
    (stale : Z -> list ascii * list ascii) (cell : Z * Z) (x : Z) (fuel : nat)
    (w : Walk) :
  currCell w = Some cell ->
  load t cell.1 cell.2 = Some (mkCell None NUL x) ->
  walk_loop (S fuel) t seq1Val seq2Val stale w
  = Some (mkWalk None (strcat (stale (idx w)).1 (seq1Add w))
                 (strcat (stale (idx w)).2 (seq2Add w))
                 (cur_i w) (cur_j w) (idx w + 1)).
Proof.
  intros Hcur Hload. cbn [walk_loop]. rewrite Hcur.
  unfold walk_step, getSourceChar, getSource. rewrite Hload.
  cbn [fmap option_fmap option_map mbind option_bind sourceChar sourceCell].
  unfold analyzeSourceChar.
  rewrite !bool_decide_eq_false_2 by (vm_compute; discriminate).
  cbn [mbind option_bind]. now destruct fuel.
Qed.

(** X5: a record of length 0 (a header with no value line, in a zeroed
    block) can be compared on a heap whose fresh string blocks hold one
    character at most: against a sequence that holds A, in either order, the
    reported score is (int)m * G, and the two strings returned are what the
    two blocks of the only loop run held. *)
Theorem compareSequences_empty (heap : Heap) (seq1 seq2 : Sequence)
    (A : list ascii) (m s g : Z) :
  holds seq1 A -> seqLen seq2 = 0 -> shortStale heap ->
  compareSequences heap seq1 seq2 m s g
  = Some (int_mul (int_wrap (strlen A)) g,
          createAlignment 2 (stale_strings heap 1).1 (stale_strings heap 1).2) /\
  compareSequences heap seq2 seq1 m s g
  = Some (int_mul (int_wrap (strlen A)) g,
          createAlignment 2 (stale_strings heap 1).1 (stale_strings heap 1).2).
Proof.
  intros (HA & HlA & HfA) Hl2 _. unfold strlen in *. split.
  - unfold compareSequences, fillTable, getSeqLen. rewrite HlA, Hl2.
    rewrite size_succ_nat by done. change (size_add 0 1) with (Z.of_nat 1).
    destruct (initializeTable_spec
                (createTable (stale_cells heap) (Z.of_nat (S (length A))) (Z.of_nat 1))
                (length A) 0 g) as (t & Hinit & _ & Hcol & _).
    { apply createTable_shaped. }
    rewrite Hinit. cbn [mbind option_bind].
    unfold for_range at 1.
    rewrite for_loop_skip by (intros; reflexivity). cbn [mbind option_bind].
    rewrite size_pred_nat by done. change (size_sub (Z.of_nat 1) 1) with 0.
    unfold getScore. cbn [fst snd]. rewrite Hcol by lia.
    cbn [fmap option_fmap option_map mbind option_bind boundaryCell score].
    unfold calAlignment, walk_fuel.
    erewrite walk_loop_boundary; [| reflexivity |].
    + cbn [mbind option_bind seq1Add seq2Add idx walk_start]. unfold strcat.
      now rewrite !app_nil_r.
    + cbn [walk_start currCell fst snd]. rewrite size_pred_nat by done.
      change (size_sub (Z.of_nat 1) 1) with 0. apply Hcol. lia.
  - unfold compareSequences, fillTable, getSeqLen. rewrite HlA, Hl2.
    rewrite size_succ_nat by done. change (size_add 0 1) with (Z.of_nat 1).
    destruct (initializeTable_spec
                (createTable (stale_cells heap) (Z.of_nat 1) (Z.of_nat (S (length A))))
                0 (length A) g) as (t & Hinit & _ & _ & Hrow).
    { apply createTable_shaped. }
    rewrite Hinit. cbn [mbind option_bind].
    unfold for_range at 1. cbn [for_loop Z.to_nat Z.sub Z.of_nat].
    change (Z.to_nat (Z.of_nat 1 - 1)) with O. cbn [for_loop mbind option_bind].
    change (size_sub (Z.of_nat 1) 1) with 0. rewrite size_pred_nat by done.
    unfold getScore. cbn [fst snd]. rewrite Hrow by lia.
    cbn [fmap option_fmap option_map mbind option_bind boundaryCell score].
    unfold calAlignment, walk_fuel.
    erewrite walk_loop_boundary; [| reflexivity |].
    + cbn [mbind option_bind seq1Add seq2Add idx walk_start]. unfold strcat.
      now rewrite !app_nil_r.
    + cbn [walk_start currCell fst snd]. change (size_sub (Z.of_nat 1) 1) with 0.
      rewrite size_pred_nat by done. apply Hrow. lia.
Qed.

Lemma compareSequences_empty_witness :
  holds (record "GAT") (list_ascii_of_string "GAT") /\
  seqLen (parseRecord 0 [] []) = 0 /\
  shortStale zeroedHeap /\
  compareSequences zeroedHeap (record "GAT") (parseRecord 0 [] []) 1 (-1) (-2)
  = Some (-6, createAlignment 2 [] []) /\
  compareSequences zeroedHeap (parseRecord 0 [] []) (record "GAT") 1 (-1) (-2)
  = Some (-6, createAlignment 2 [] []).
Proof.
  assert (H1 : holds (record "GAT") (list_ascii_of_string "GAT"))
    by (apply record_holds; vm_compute; reflexivity).
  split; [exact H1|]. split; [reflexivity|]. split; [exact zeroedHeap_short|].
  apply (compareSequences_empty zeroedHeap _ (parseRecord 0 [] []) _ 1 (-1) (-2) H1
           eq_refl zeroedHeap_short).
Defined.

(** ** Records *)

Lemma size_add_wrap (x y : Z) : size_add (size_wrap x) y = size_wrap (x + y).
Proof. unfold size_add, size_wrap. now rewrite Zplus_mod_idemp_l. Qed.

Lemma size_wrap_wrap (x : Z) : size_wrap (size_wrap x) = size_wrap x.
Proof. unfold size_wrap. now rewrite Zmod_mod. Qed.

Lemma size_wrap_shift (a b : Z) :
  0 <= b < 2^64 -> size_wrap (a + b) = b <-> size_wrap a = 0.
Proof.
  intros Hb. unfold size_wrap. rewrite <- (Zplus_mod_idemp_l a b).
  pose proof (Z.mod_pos_bound a (2^64) ltac:(lia)) as Ha.
  split; intros H.
  - destruct (decide (a mod 2^64 + b < 2^64)) as [Hlt|Hge].
    + rewrite Z.mod_small in H by lia. lia.
    + rewrite <- (Z.mod_add _ (-1)) in H by lia.
      rewrite Z.mod_small in H by lia. lia.
  - rewrite H. apply Z.mod_small. lia.
Qed.

(** X6: a record built from a header and one value line holds the name and
    the line; its length field is what its block held plus the length of the
    line, modulo 2^64, so that it is the length of the value exactly when
    the block held a multiple of 2^64. *)
Theorem parseRecord_fields (stale : Z) (name l : list ascii) :
  strlen l + 1 < 2^64 ->
  seqName (parseRecord stale name [l]) = Some name /\
  seqVal (parseRecord stale name [l]) = Some l /\
  seqLen (parseRecord stale name [l]) = size_wrap (stale + strlen l) /\
  (holds (parseRecord stale name [l]) l <-> size_wrap stale = 0).
Proof.
  intros Hfit. unfold parseRecord, holds.
  cbn [foldl setSeqVal setSeqLen setSeqName initializeSeq seqName seqVal seqLen app].
  unfold size_add.
  split; [reflexivity|]. split; [reflexivity|]. split; [reflexivity|].
  assert (Hl : 0 <= strlen l < 2^64) by (unfold strlen in *; lia).
  pose proof (size_wrap_shift stale (strlen l) Hl) as Hshift.
  tauto.
Qed.

Lemma parseRecord_fields_witness :
  strlen ["G"; "A"]%char + 1 < 2^64 /\
  seqName (parseRecord 5 ["x"%char] [["G"; "A"]%char]) = Some ["x"%char] /\
  seqVal (parseRecord 5 ["x"%char] [["G"; "A"]%char]) = Some ["G"; "A"]%char /\
  seqLen (parseRecord 5 ["x"%char] [["G"; "A"]%char]) = 7.
Proof.
  assert (H : strlen ["G"; "A"]%char + 1 < 2^64) by (vm_compute; reflexivity).
  split; [exact H|].
  destruct (parseRecord_fields 5 ["x"%char] ["G"; "A"]%char H) as (H1 & H2 & H3 & _).
  split; [exact H1|]. split; [exact H2|]. exact H3.
Defined.

(** ** Reading lines *)

Lemma read_line_line (l rest : list ascii) : forall k : nat,
  plainText l -> (length l < k)%nat ->
  read_line k (l ++ "010"%char :: rest) = (l ++ ["010"%char], rest).
Proof.
  induction l as [|ch l IH]; intros k Hp Hk.
  - destruct k; [simpl in Hk; lia|]. reflexivity.
  - destruct k; [simpl in Hk; lia|].
    apply Forall_cons in Hp as [[Hnl _] Hp].
    cbn [read_line app]. rewrite bool_decide_eq_false_2 by done.
    rewrite IH by (simpl in Hk; done || lia). reflexivity.
Qed.

Lemma read_line_cons (k : nat) (ch : ascii) (rest : list ascii) :
  read_line (S k) (ch :: rest)
  = if bool_decide (ch = "010"%char) then ([ch], rest)
    else (ch :: (read_line k rest).1, (read_line k rest).2).
Proof. reflexivity. Qed.

Lemma read_line_shorter (k : nat) : forall file : list ascii,
  (length (read_line (S k) file).2 < length file)%nat \/ file = [].
Proof.
  induction k as [|k IH]; intros [|ch rest]; auto; left.
  - rewrite read_line_cons. case_bool_decide; simpl; lia.
  - rewrite read_line_cons. case_bool_decide as Hch; [simpl; lia|].
    cbn [snd length].
    destruct (IH rest) as [Hlt | ->]; [lia | simpl; lia].
Qed.

Lemma read_line_chunk (k : nat) : forall (l rest : list ascii),
  plainText l -> (k <= length l)%nat ->
  read_line k (l ++ rest) = (take k l, drop k l ++ rest).
Proof.
  induction k as [|k IH]; intros l rest Hp Hk.
  - now destruct l.
  - destruct l as [|ch l]; [simpl in Hk; lia|].
    apply Forall_cons in Hp as [[Hnl _] Hp].
    change ((ch :: l) ++ rest) with (ch :: (l ++ rest)).
    rewrite read_line_cons, bool_decide_eq_false_2 by done.
    rewrite IH by (simpl in Hk; done || lia). reflexivity.
Qed.

(** The loop of [parseSeqFile] does not depend on its fuel once the fuel
    covers the file: the model never stops a loop that the code
    continues. *)
Lemma parseLoop_fuel (stale : nat -> Z) (fuel1 : nat) :
  forall (fuel2 : nat) (file : list ascii) (st : ParseState),
  (length file <= fuel1)%nat -> (length file <= fuel2)%nat ->
  parseLoop fuel1 stale file st = parseLoop fuel2 stale file st.
Proof.
  induction fuel1 as [|fuel1 IH]; intros fuel2 file st H1 H2.
  - destruct file; [|simpl in H1; lia]. now destruct fuel2.
  - destruct file as [|ch rest]; [now destruct fuel2|].
    destruct fuel2 as [|fuel2]; [simpl in H2; lia|].
    cbn [parseLoop fgets].
    change (Z.to_nat (MAX_LINE_LEN + NEW_LINE_LEN - 1)) with 100%nat.
    destruct (read_line_shorter 99 (ch :: rest)) as [Hlt|]; [|done].
    destruct (read_line 100 (ch :: rest)) as [buff rest'].
    destruct (parseLine stale buff st) as [st'|]; [|reflexivity].
    cbn [mbind option_bind].
    cbn [snd length] in *. apply IH; lia.
Qed.

Lemma parseLoop_line (stale : nat -> Z) (buff rest file : list ascii)
    (st st' : ParseState) :
  file <> [] -> read_line 100 file = (buff, rest) ->
  parseLine stale buff st = Some st' ->
  parseLoop (length file) stale file st = parseLoop (length rest) stale rest st'.
Proof.
  intros Hne Hread Hline.
  destruct file as [|ch file]; [done|].
  cbn [length parseLoop fgets].
  change (Z.to_nat (MAX_LINE_LEN + NEW_LINE_LEN - 1)) with 100%nat.
  rewrite Hread, Hline. cbn [mbind option_bind].
  destruct (read_line_shorter 99 (ch :: file)) as [Hlt|]; [|done].
  rewrite Hread in Hlt. cbn [snd length] in *. apply parseLoop_fuel; lia.
Qed.

Lemma parseLoop_stops (stale : nat -> Z) (fuel : nat) (file : list ascii)
    (st : ParseState) :
  file <> [] -> parseLine stale (read_line 100 file).1 st = None ->
  parseLoop (S fuel) stale file st = None.
Proof.
  intros Hne Hline. destruct file as [|ch rest]; [done|].
  cbn [parseLoop fgets].
  change (Z.to_nat (MAX_LINE_LEN + NEW_LINE_LEN - 1)) with 100%nat.
  destruct (read_line 100 (ch :: rest)) as [buff rest'].
  cbn [fst] in Hline. now rewrite Hline.
Qed.

Lemma c_string_plain (l rest : list ascii) :
  plainText l -> c_string (l ++ "010"%char :: rest) = l ++ c_string ("010"%char :: rest).
Proof.
  induction l as [|ch l IH]; intros Hp; [reflexivity|].
  apply Forall_cons in Hp as [[_ H0] Hp].
  cbn [c_string app]. rewrite bool_decide_eq_false_2 by done. now rewrite IH.
Qed.

Lemma c_string_whole (c : list ascii) : plainText c -> c_string c = c.
Proof.
  induction c as [|ch c IH]; intros Hp; [reflexivity|].
  apply Forall_cons in Hp as [[_ H0] Hp].
  cbn [c_string]. rewrite bool_decide_eq_false_2 by done. now rewrite IH.
Qed.

Lemma first_token_plain (l : list ascii) :
  plainText l -> first_token NEW_LINE (l ++ NEW_LINE) = l.
Proof.
  induction l as [|ch l IH]; intros Hp; [reflexivity|].
  apply Forall_cons in Hp as [[Hnl _] Hp].
  cbn [first_token app].
  rewrite bool_decide_eq_false_2; [now rewrite IH|].
  unfold NEW_LINE. rewrite list_elem_of_singleton. done.
Qed.

Lemma first_token_whole (c : list ascii) : plainText c -> first_token NEW_LINE c = c.
Proof.
  induction c as [|ch c IH]; intros Hp; [reflexivity|].
  apply Forall_cons in Hp as [[Hnl _] Hp].
  cbn [first_token].
  rewrite bool_decide_eq_false_2; [now rewrite IH|].
  unfold NEW_LINE. rewrite list_elem_of_singleton. done.
Qed.

Lemma refineData_line (l : list ascii) :
  l <> [] -> plainText l -> refineData (l ++ NEW_LINE) = Some l.
Proof.
  intros Hne Hp. unfold refineData, strtok, NEW_LINE.
  rewrite c_string_plain by done.
  change (c_string ["010"%char]) with ["010"%char].
  destruct l as [|ch l]; [done|].
  pose proof Hp as Hp'. apply Forall_cons in Hp' as [[Hnl _] _].
  cbn [app skip_delimiters].
  rewrite bool_decide_eq_false_2 by (rewrite list_elem_of_singleton; done).
  f_equal. apply (first_token_plain (ch :: l) Hp).
Qed.

Lemma refineData_whole (c : list ascii) :
  c <> [] -> plainText c -> refineData c = Some c.
Proof.
  intros Hne Hp. unfold refineData, strtok. rewrite c_string_whole by done.
  destruct c as [|ch c]; [done|].
  pose proof Hp as Hp'. apply Forall_cons in Hp' as [[Hnl _] _].
  cbn [skip_delimiters].
  rewrite bool_decide_eq_false_2
    by (unfold NEW_LINE; rewrite list_elem_of_singleton; done).
  f_equal. now apply first_token_whole.
Qed.

(** [strtok] never returns an empty token. *)
Lemma skip_delimiters_head (delim str : list ascii) (ch : ascii) (rest : list ascii) :
  skip_delimiters delim str = ch :: rest -> ch ∉ delim.
Proof.
  induction str as [|x str IH]; [discriminate|].
  cbn [skip_delimiters]. case_bool_decide as Hx; [exact IH|].
  intros [= <- _]. exact Hx.
Qed.

Lemma refineData_token (str val : list ascii) : refineData str = Some val -> val <> [].
Proof.
  unfold refineData, strtok.
  destruct (skip_delimiters NEW_LINE (c_string str)) as [|ch rest] eqn:Hskip;
    [discriminate|].
  apply skip_delimiters_head in Hskip. intros [= <-].
  cbn [first_token]. now rewrite bool_decide_eq_false_2.
Qed.

(** ** Reading records back *)

Lemma setSeqVal_sized_first (cur : Sequence) (val : list ascii) :
  seqVal cur = None -> setSeqVal_sized cur val = Some (setSeqVal cur val).
Proof. intros H. unfold setSeqVal_sized. now rewrite H. Qed.

Lemma setSeqVal_sized_later (cur : Sequence) (old val : list ascii) :
  seqVal cur = Some old -> val <> [] -> setSeqVal_sized cur val = None.
Proof.
  intros H Hne. unfold setSeqVal_sized. rewrite H. cbv zeta.
  rewrite bool_decide_eq_false_2; [reflexivity|].
  unfold strlen. destruct val; [done|]. cbn [length]. lia.
Qed.

Lemma setSeqVal_sized_result (cur cur' : Sequence) (val : list ascii) :
  setSeqVal_sized cur val = Some cur' -> cur' = setSeqVal cur val.
Proof.
  unfold setSeqVal_sized. destruct (seqVal cur); cbv zeta;
    [case_bool_decide|]; congruence.
Qed.

Lemma parseLoop_header (stale : nat -> Z) (name rest : list ascii) (st : ParseState) :
  toStart st = true -> name <> [] -> plainText name -> (length name < 99)%nat ->
  parseLoop (length (HEADER_PREFIX :: name ++ NEW_LINE ++ rest)) stale
    (HEADER_PREFIX :: name ++ NEW_LINE ++ rest) st
  = parseLoop (length rest) stale rest
      (mkParseState (linked st)
         (Some (mkSequence (Some name) None (stale (length (linked st)))))
         false (size_add (seqNum st) 1)).
Proof.
  intros Hstart Hne Hp Hlen.
  apply (parseLoop_line stale (HEADER_PREFIX :: name ++ NEW_LINE)); [done | |].
  - rewrite read_line_cons. rewrite bool_decide_eq_false_2 by done.
    unfold NEW_LINE. cbn [app]. now rewrite read_line_line.
  - unfold parseLine. rewrite Hstart. cbn [head tail andb].
    rewrite bool_decide_eq_true_2 by done.
    rewrite refineData_line by done. reflexivity.
Qed.

(** The first value line of a record, read in one piece. *)
Lemma parseLoop_value (stale : nat -> Z) (l rest : list ascii) (st : ParseState)
    (cur : Sequence) :
  cur_seq st = Some cur -> seqVal cur = None -> valueLine l ->
  (toStart st = false \/ head l <> Some HEADER_PREFIX) ->
  parseLoop (length (l ++ NEW_LINE ++ rest)) stale (l ++ NEW_LINE ++ rest) st
  = parseLoop (length rest) stale rest
      (mkParseState (closed st) (Some (setSeqVal cur l)) true (seqNum st)).
Proof.
  intros Hcur Hnull (Hne & Hp & Hlen) Hhead.
  apply (parseLoop_line stale (l ++ NEW_LINE)); [now destruct l | |].
  - unfold NEW_LINE. cbn [app]. now rewrite read_line_line.
  - unfold parseLine.
    assert (toStart st && bool_decide (head (l ++ NEW_LINE) = Some HEADER_PREFIX)
            = false) as ->.
    { destruct Hhead as [-> | Hh]; [reflexivity|].
      rewrite bool_decide_eq_false_2; [apply andb_false_r|].
      destruct l; [done | exact Hh]. }
    rewrite bool_decide_eq_true_2.
    + rewrite refineData_line, Hcur by done. cbn [mbind option_bind].
      now rewrite setSeqVal_sized_first.
    + unfold NEW_LINE. rewrite c_string_plain by done.
      change (c_string ["010"%char]) with ["010"%char].
      destruct l as [|a l]; [done|]. intros H. injection H as _ H.
      destruct l; discriminate.
Qed.

(** The first 100 characters of a longer line: [fgets] stops before the end
    of the line. *)
Lemma parseLoop_chunk (stale : nat -> Z) (l rest : list ascii) (st : ParseState)
    (cur : Sequence) :
  cur_seq st = Some cur -> seqVal cur = None ->
  length l = 100%nat -> plainText l ->
  (toStart st = false \/ head l <> Some HEADER_PREFIX) ->
  parseLoop (length (l ++ rest)) stale (l ++ rest) st
  = parseLoop (length rest) stale rest
      (mkParseState (closed st) (Some (setSeqVal cur l)) true (seqNum st)).
Proof.
  intros Hcur Hnull Hlen Hp Hhead.
  assert (Hne : l <> []) by (intros ->; discriminate).
  apply (parseLoop_line stale l); [now destruct l | |].
  - rewrite read_line_chunk by (done || lia).
    now rewrite <- Hlen, firstn_all, drop_all.
  - unfold parseLine.
    assert (toStart st && bool_decide (head l = Some HEADER_PREFIX) = false) as ->.
    { destruct Hhead as [-> | Hh]; [reflexivity|].
      rewrite bool_decide_eq_false_2 by done. apply andb_false_r. }
    rewrite bool_decide_eq_true_2.
    + rewrite refineData_whole, Hcur by done. cbn [mbind option_bind].
      now rewrite setSeqVal_sized_first.
    + rewrite c_string_whole by done. intros ->. discriminate.
Qed.

Lemma parseLoop_blank (stale : nat -> Z) (rest : list ascii) (st : ParseState) :
  parseLoop (length (NEW_LINE ++ rest)) stale (NEW_LINE ++ rest) st
  = parseLoop (length rest) stale rest st.
Proof.
  apply (parseLoop_line stale NEW_LINE); [done | reflexivity |].
  unfold parseLine. cbn [head NEW_LINE].
  rewrite (bool_decide_eq_false_2 (Some "010"%char = Some HEADER_PREFIX)) by done.
  rewrite andb_false_r. reflexivity.
Qed.

Lemma parseLoop_records (stale : nat -> Z) (records : list (list ascii * list ascii)) :
  forall st : ParseState,
  toStart st = true -> size_wrap (seqNum st) = seqNum st ->
  Forall readableRecord records ->
  exists st',
    parseLoop (length (concat (renderRecord <$> records))) stale
      (concat (renderRecord <$> records)) st = Some st' /\
    linked st'
    = linked st ++ imap (fun k => recordOf stale (length (linked st) + k)) records /\
    seqNum st' = size_wrap (seqNum st + Z.of_nat (length records)).
Proof.
  induction records as [|[name l] records IH]; intros st Hstart Hnum Hall.
  - exists st. cbn. rewrite app_nil_r, Z.add_0_r. now destruct st.
  - apply Forall_cons in Hall as [(Hn1 & Hn2 & Hn3 & Hl) Hall].
    cbn [fst snd] in *.
    assert (Hfile : concat (renderRecord <$> (name, l) :: records)
                    = HEADER_PREFIX :: name ++ NEW_LINE
                        ++ (l ++ NEW_LINE ++ concat (renderRecord <$> records))).
    { change (concat (renderRecord <$> (name, l) :: records))
        with (renderRecord (name, l) ++ concat (renderRecord <$> records)).
      unfold renderRecord. cbn [fst snd app]. now rewrite <- !app_assoc. }
    rewrite Hfile.
    rewrite parseLoop_header by done.
    rewrite (parseLoop_value stale l _
               (mkParseState (linked st)
                  (Some (mkSequence (Some name) None (stale (length (linked st)))))
                  false (size_add (seqNum st) 1))
               (mkSequence (Some name) None (stale (length (linked st))))
               eq_refl eq_refl Hl (or_introl eq_refl)).
    cbn [closed seqNum].
    set (new := setSeqVal (mkSequence (Some name) None (stale (length (linked st)))) l).
    assert (Hnew : new = recordOf stale (length (linked st)) (name, l)) by reflexivity.
    destruct (IH (mkParseState (linked st) (Some new) true (size_add (seqNum st) 1)))
      as (st' & Hparse & Hlinked & Hcount); [done | | done |].
    { unfold size_add. apply size_wrap_wrap. }
    exists st'. split; [exact Hparse|]. split.
    + rewrite Hlinked. unfold linked at 1 3. cbn [closed cur_seq option_list].
      rewrite <- app_assoc. f_equal. change (option_list (Some new)) with [new].
      rewrite imap_cons. cbn [app]. f_equal.
      * rewrite Nat.add_0_r. exact Hnew.
      * apply imap_ext. intros k rec _. cbn [compose]. rewrite length_app.
        cbn [length]. f_equal. lia.
    + rewrite Hcount. cbn [seqNum length]. rewrite <- Hnum at 1.
      rewrite size_add_wrap.
      change (size_wrap (size_wrap (seqNum st + 1) + Z.of_nat (length records)))
        with (size_add (size_wrap (seqNum st + 1)) (Z.of_nat (length records))).
      rewrite size_add_wrap. f_equal. lia.
Qed.

(** X7: a file made of records with a name and one value line, both short
    enough for the buffer of [fgets], is read back by [parseSeqFile] record
    by record: names and values as written, and the counter the number of
    records.  The length field of the k-th record is the length of its value
    plus what its block held. *)
Theorem parseSeqFile_reads_back (stale : nat -> Z)
    (records : list (list ascii * list ascii)) :
  Forall readableRecord records ->
  parseSeqFile stale (concat (renderRecord <$> records)) 0
  = Some (imap (recordOf stale) records, size_wrap (Z.of_nat (length records))).
Proof.
  intros Hall. unfold parseSeqFile.
  destruct (parseLoop_records stale records (mkParseState [] None true 0))
    as (st & Hparse & Hlinked & Hcount); [done | done | done |].
  rewrite Hparse. cbn [mbind option_bind]. rewrite Hlinked, Hcount.
  reflexivity.
Qed.

Lemma parseSeqFile_reads_back_witness :
  Forall readableRecord
    [(["a"%char], ["G"; "A"; "T"]%char); (["b"%char], [">"; "C"]%char)] /\
  parseSeqFile (fun _ => 0)
    (concat (renderRecord <$>
       [(["a"%char], ["G"; "A"; "T"]%char); (["b"%char], [">"; "C"]%char)])) 0
  = Some ([mkSequence (Some ["a"%char]) (Some ["G"; "A"; "T"]%char) 3;
           mkSequence (Some ["b"%char]) (Some [">"; "C"]%char) 2], 2).
Proof.
  assert (H : Forall readableRecord
    [(["a"%char], ["G"; "A"; "T"]%char); (["b"%char], [">"; "C"]%char)]).
  { repeat constructor; simpl; try discriminate; lia. }
  split; [exact H|].
  apply (parseSeqFile_reads_back (fun _ => 0) _ H).
Defined.

(** ** What the parser keeps true on every file *)

Lemma size_wrap_add_congr (a a' b : Z) :
  size_wrap a = size_wrap a' -> size_wrap (size_add a b) = size_wrap (a' + b).
Proof.
  unfold size_add, size_wrap. intros H.
  rewrite Zmod_mod, (Zplus_mod a b), H, <- Zplus_mod. reflexivity.
Qed.

Section ParserInvariant.
Variable stale : nat -> Z.

Lemma parseLine_invariant (buff : list ascii) (st st' : ParseState) :
  parseLine stale buff st = Some st' ->
  (seqNum st = size_wrap (Z.of_nat (length (linked st))) /\
   (forall k x, linked st !! k = Some x ->
      seqName x <> None /\
      size_wrap (seqLen x) = size_wrap (stale k + strlen (default [] (seqVal x)))) /\
   Forall (fun x => seqVal x <> None) (closed st) /\
   (toStart st = true -> forall x, cur_seq st = Some x -> seqVal x <> None)) ->
  seqNum st' = size_wrap (Z.of_nat (length (linked st'))) /\
  (forall k x, linked st' !! k = Some x ->
     seqName x <> None /\
     size_wrap (seqLen x) = size_wrap (stale k + strlen (default [] (seqVal x)))) /\
  Forall (fun x => seqVal x <> None) (closed st') /\
  (toStart st' = true -> forall x, cur_seq st' = Some x -> seqVal x <> None).
Proof.
  intros Hline (I1 & I2 & I3 & I4). unfold parseLine in Hline.
  destruct (toStart st && bool_decide (head buff = Some HEADER_PREFIX)) eqn:Hhead.
  - apply andb_true_iff in Hhead as [Hstart _].
    destruct (refineData (tail buff)) as [name|]; [|discriminate].
    injection Hline as <-. unfold linked at 1 2 3. cbn [closed cur_seq toStart seqNum].
    change (option_list (Some ?x)) with [x].
    split; [|split; [|split]].
    + rewrite I1, size_add_wrap, length_app. cbn [length]. f_equal. lia.
    + intros k x Hk. apply lookup_snoc_Some in Hk as [[_ Hk] | [-> <-]]; [eauto|].
      split; [done|]. cbn. now rewrite Z.add_0_r.
    + unfold linked. apply Forall_app. split; [exact I3|].
      destruct (cur_seq st) as [cur|]; [|constructor].
      constructor; [|constructor]. now apply I4.
    + discriminate.
  - destruct (bool_decide (c_string buff <> NEW_LINE)); [|injection Hline as <-; done].
    destruct (refineData buff) as [val|]; [|discriminate].
    cbn [mbind option_bind] in Hline.
    destruct (cur_seq st) as [cur|] eqn:Hcur; [|discriminate].
    cbn [mbind option_bind] in Hline.
    destruct (setSeqVal_sized cur val) as [cur'|] eqn:Hset; [|discriminate].
    apply setSeqVal_sized_result in Hset as ->.
    injection Hline as <-. unfold linked in *. rewrite Hcur in *.
    cbn [closed cur_seq toStart seqNum].
    change (option_list (Some ?x)) with [x] in *.
    split; [|split; [|split]].
    + rewrite I1, !length_app. reflexivity.
    + intros k x Hk. apply lookup_snoc_Some in Hk as [[Hlt Hk] | [-> <-]].
      * apply I2. apply lookup_snoc_Some. now left.
      * destruct (I2 (length (closed st)) cur) as [Hn Hl];
          [apply lookup_snoc_Some; now right|].
        split; [exact Hn|].
        cbn [setSeqVal setSeqLen seqVal seqLen].
        rewrite (size_wrap_add_congr _ _ _ Hl). f_equal.
        destruct (seqVal cur); cbn [default from_option]; unfold id, strlen;
          rewrite length_app; cbn [length]; lia.
    + exact I3.
    + intros _ x [= <-]. done.
Qed.

Lemma parseLoop_invariant (fuel : nat) : forall (file : list ascii) (st st' : ParseState),
  parseLoop fuel stale file st = Some st' ->
  (seqNum st = size_wrap (Z.of_nat (length (linked st))) /\
   (forall k x, linked st !! k = Some x ->
      seqName x <> None /\
      size_wrap (seqLen x) = size_wrap (stale k + strlen (default [] (seqVal x)))) /\
   Forall (fun x => seqVal x <> None) (closed st) /\
   (toStart st = true -> forall x, cur_seq st = Some x -> seqVal x <> None)) ->
  seqNum st' = size_wrap (Z.of_nat (length (linked st'))) /\
  (forall k x, linked st' !! k = Some x ->
     seqName x <> None /\
     size_wrap (seqLen x) = size_wrap (stale k + strlen (default [] (seqVal x)))) /\
  Forall (fun x => seqVal x <> None) (closed st').
Proof.
  induction fuel as [|fuel IH]; intros file st st' Hloop Hinv.
  - destruct file as [|ch rest]; cbn [parseLoop fgets] in Hloop.
    + injection Hloop as <-. tauto.
    + destruct (read_line _ (ch :: rest)); discriminate.
  - destruct file as [|ch rest]; cbn [parseLoop fgets] in Hloop;
      [injection Hloop as <-; tauto|].
    destruct (read_line _ (ch :: rest)) as [buff rest'].
    destruct (parseLine stale buff st) as [st1|] eqn:Hline; [|discriminate].
    cbn [mbind option_bind] in Hloop.
    apply (IH rest' st1 st' Hloop). now apply (parseLine_invariant buff st).
Qed.

End ParserInvariant.

(** X8: whatever the file, when [parseSeqFile] returns, the counter is the
    number of records of the list; every record has a name, and its length
    field is off from the length of its value by what its block held (modulo
    2^64); and only the last record of the list can be without a value. *)
Theorem parseSeqFile_invariants (stale : nat -> Z) (file : list ascii)
    (seqs : list Sequence) (n : Z) :
  parseSeqFile stale file 0 = Some (seqs, n) ->
  n = size_wrap (Z.of_nat (length seqs)) /\
  (forall k x, seqs !! k = Some x ->
     seqName x <> None /\
     size_wrap (seqLen x) = size_wrap (stale k + strlen (default [] (seqVal x)))) /\
  (forall k x, seqs !! k = Some x -> (S k < length seqs)%nat -> seqVal x <> None).
Proof.
  unfold parseSeqFile. intros Hparse.
  destruct (parseLoop _ stale file _) as [st|] eqn:Hloop; [|discriminate].
  injection Hparse as <- <-.
  destruct (parseLoop_invariant stale _ _ _ _ Hloop) as (I1 & I2 & I3).
  { cbn. repeat split; done. }
  split; [exact I1|]. split; [exact I2|].
  intros k x Hk Hlt. unfold linked in *.
  rewrite length_app in Hlt.
  assert (k < length (closed st))%nat by (destruct (cur_seq st); simpl in Hlt; lia).
  rewrite lookup_app_l in Hk by done.
  rewrite Forall_forall in I3. apply I3. eapply list_elem_of_lookup_2. exact Hk.
Qed.

Lemma parseSeqFile_invariants_witness :
  parseSeqFile (fun k => Z.of_nat k) (list_ascii_of_string ">a
GAT

>b
") 0
  = Some ([mkSequence (Some ["a"%char]) (Some ["G"; "A"; "T"]%char) 3;
           mkSequence (Some ["b"%char]) None 1], 2) /\
  2 = size_wrap (Z.of_nat 2).
Proof.
  assert (H : parseSeqFile (fun k => Z.of_nat k) (list_ascii_of_string ">a
GAT

>b
") 0
  = Some ([mkSequence (Some ["a"%char]) (Some ["G"; "A"; "T"]%char) 3;
           mkSequence (Some ["b"%char]) None 1], 2)) by (vm_compute; reflexivity).
  split; [exact H|].
  exact (proj1 (parseSeqFile_invariants _ _ _ _ H)).
Defined.

Lemma parseLine_no_record (stale : nat -> Z) (ch : ascii) (buff : list ascii) (n0 : Z) :
  ch <> HEADER_PREFIX -> ch <> "010"%char ->
  parseLine stale (ch :: buff) (mkParseState [] None true n0) = None.
Proof.
  intros Hh Hnl. unfold parseLine. cbn [toStart head andb cur_seq].
  rewrite bool_decide_eq_false_2 by congruence.
  rewrite bool_decide_eq_true_2.
  - now destruct (refineData (ch :: buff)).
  - cbn [c_string]. case_bool_decide; [done|]. unfold NEW_LINE. congruence.
Qed.

(** X9: a file whose first line is neither empty nor a header makes
    [parseSeqFile] write through the null [seq], and a first header line with
    no name makes it take the length of a null string: in both cases it
    returns nothing. *)
Theorem parseSeqFile_needs_header (stale : nat -> Z) (ch : ascii)
    (rest : list ascii) (n0 : Z) :
  ch <> HEADER_PREFIX -> ch <> "010"%char ->
  parseSeqFile stale (ch :: rest) n0 = None /\
  parseSeqFile stale (HEADER_PREFIX :: "010"%char :: rest) n0 = None.
Proof.
  intros Hh Hnl. split.
  - unfold parseSeqFile. cbn [length].
    rewrite parseLoop_stops; [reflexivity | done |].
    rewrite read_line_cons, bool_decide_eq_false_2 by done. cbn [fst].
    now apply parseLine_no_record.
  - unfold parseSeqFile. cbn [length].
    rewrite parseLoop_stops; [reflexivity | done |].
    rewrite read_line_cons, bool_decide_eq_false_2 by done.
    rewrite read_line_cons, bool_decide_eq_true_2 by done.
    reflexivity.
Qed.

Lemma parseSeqFile_needs_header_witness :
  "G"%char <> HEADER_PREFIX /\ "G"%char <> "010"%char /\
  parseSeqFile (fun _ => 0) ("G"%char :: list_ascii_of_string "ATTACA") 0 = None /\
  parseSeqFile (fun _ => 0) (HEADER_PREFIX :: "010"%char :: list_ascii_of_string "ATTACA") 0
  = None.
Proof.
  split; [discriminate|]. split; [discriminate|].
  exact (parseSeqFile_needs_header (fun _ => 0) "G"%char
           (list_ascii_of_string "ATTACA") 0 ltac:(discriminate) ltac:(discriminate)).
Defined.

(** ** A second value line, and lines longer than the buffer *)

(** A value line for a record that has a value already: [strcpy] writes
    behind the block of the value. *)
Lemma parseLine_second_value (stale : nat -> Z) (ch : ascii) (buff : list ascii)
    (st : ParseState) (cur : Sequence) (old : list ascii) :
  cur_seq st = Some cur -> seqVal cur = Some old ->
  ch <> HEADER_PREFIX -> ch <> "010"%char ->
  parseLine stale (ch :: buff) st = None.
Proof.
  intros Hcur Hold Hh Hnl. unfold parseLine. cbn [head].
  rewrite (bool_decide_eq_false_2 (Some ch = Some HEADER_PREFIX)) by congruence.
  rewrite andb_false_r.
  rewrite bool_decide_eq_true_2.
  - destruct (refineData (ch :: buff)) as [val|] eqn:Hval; [|reflexivity].
    apply refineData_token in Hval.
    cbn [mbind option_bind]. rewrite Hcur. cbn [mbind option_bind].
    now rewrite (setSeqVal_sized_later cur old val).
  - cbn [c_string]. case_bool_decide; [done|]. unfold NEW_LINE. congruence.
Qed.

Lemma parseLoop_second_value (stale : nat -> Z) (ch : ascii) (rest : list ascii)
    (st : ParseState) (cur : Sequence) (old : list ascii) :
  cur_seq st = Some cur -> seqVal cur = Some old ->
  ch <> HEADER_PREFIX -> ch <> "010"%char ->
  parseLoop (length (ch :: rest)) stale (ch :: rest) st = None.
Proof.
  intros Hcur Hold Hh Hnl. cbn [length].
  apply parseLoop_stops; [done|].
  rewrite read_line_cons, bool_decide_eq_false_2 by done. cbn [fst].
  now apply (parseLine_second_value stale ch _ st cur old).
Qed.

(** X12: the block of a value has room for the first piece that
    [parseSeqFile] reads for it, and every later piece is copied behind the
    block.  After a header and a value line of 100 characters at most, a
    further line that is no header and not empty makes [parseSeqFile] write
    outside of the block; and so does a value line of more than 100
    characters, which [fgets] returns in pieces, when its 101st character is
    not '>'.  In both cases [parseSeqFile] returns nothing. *)
Theorem parseSeqFile_value_overflow (stale : nat -> Z) (name l : list ascii)
    (ch : ascii) (rest : list ascii) (n0 : Z) :
  name <> [] -> plainText name -> (length name < 99)%nat ->
  l <> [] -> plainText l ->
  ch <> HEADER_PREFIX -> ch <> "010"%char ->
  ((length l <= 100)%nat ->
   parseSeqFile stale
     (HEADER_PREFIX :: name ++ NEW_LINE ++ l ++ NEW_LINE ++ ch :: rest) n0 = None) /\
  (length l = 100%nat ->
   parseSeqFile stale (HEADER_PREFIX :: name ++ NEW_LINE ++ l ++ ch :: rest) n0 = None).
Proof.
  intros Hn1 Hn2 Hn3 Hl1 Hl2 Hh Hnl.
  set (st0 := mkParseState [] None true n0).
  set (cur := mkSequence (Some name) None (stale (length (linked st0)))).
  set (st1 := mkParseState (linked st0) (Some cur) false (size_add (seqNum st0) 1)).
  set (st2 := mkParseState (closed st1) (Some (setSeqVal cur l)) true (seqNum st1)).
  assert (Hstop : parseLoop (length (ch :: rest)) stale (ch :: rest) st2 = None)
    by now apply (parseLoop_second_value stale ch rest st2 (setSeqVal cur l) l).
  split; intros Hlen; unfold parseSeqFile; fold st0;
    rewrite (parseLoop_header stale name _ st0) by done; fold cur; fold st1.
  - destruct (decide (length l < 100)%nat) as [Hshort|Hfull].
    + rewrite (parseLoop_value stale l _ st1 cur eq_refl eq_refl) by (done || now left).
      fold st2. now rewrite Hstop.
    + rewrite (parseLoop_chunk stale l _ st1 cur eq_refl eq_refl)
        by (done || lia || now left).
      fold st2. rewrite (parseLoop_blank stale (ch :: rest) st2). now rewrite Hstop.
  - rewrite (parseLoop_chunk stale l _ st1 cur eq_refl eq_refl)
      by (done || now left).
    fold st2. now rewrite Hstop.
Qed.

Lemma parseSeqFile_value_overflow_witness :
  (length ["G"; "A"]%char <= 100)%nat /\
  parseSeqFile (fun _ => 0)
    (HEADER_PREFIX :: ["s"%char] ++ NEW_LINE ++ ["G"; "A"]%char ++ NEW_LINE
       ++ "T"%char :: NEW_LINE) 0 = None /\
  length (replicate 100 "G"%char) = 100%nat /\
  parseSeqFile (fun _ => 0)
    (HEADER_PREFIX :: ["s"%char] ++ NEW_LINE ++ replicate 100 "G"%char
       ++ "T"%char :: NEW_LINE) 0 = None.
Proof.
  assert (H1 : (length ["G"; "A"]%char <= 100)%nat) by (simpl; lia).
  assert (H2 : length (replicate 100 "G"%char) = 100%nat) by reflexivity.
  split; [exact H1|]. split; [|split; [exact H2|]].
  - apply (parseSeqFile_value_overflow (fun _ => 0) ["s"%char] ["G"; "A"]%char
             "T"%char NEW_LINE 0); try discriminate; try exact H1.
    + repeat constructor; discriminate.
    + simpl. lia.
    + repeat constructor; discriminate.
  - apply (parseSeqFile_value_overflow (fun _ => 0) ["s"%char] (replicate 100 "G"%char)
             "T"%char NEW_LINE 0); try discriminate; try exact H2.
    + repeat constructor; discriminate.
    + simpl. lia.
    + apply Forall_replicate. split; discriminate.
Defined.

(** ** All pairs *)

Lemma compareAll_pair (heaps : nat -> Heap) (seq1 seq2 : Sequence)
    (name1 name2 A B : list ascii) (m s g : Z) :
  seqName seq1 = Some name1 -> seqName seq2 = Some name2 ->
  holds seq1 A -> holds seq2 B ->
  exists alignment line,
    compareSequences (heaps O) seq1 seq2 m s g
    = Some (tableScore A B m s g (length A) (length B), alignment) /\
    printScore (Some name1) (Some name2) (tableScore A B m s g (length A) (length B))
    = Some line /\
    calAndPrintScores heaps [seq1; seq2] m s g = Some (line ++ alignment).
Proof.
  intros Hn1 Hn2 HA HB.
  destruct (compareSequences_spec (heaps O) seq1 seq2 A B m s g HA HB) as [al Hal].
  exists al. eexists. split; [exact Hal|]. split; [reflexivity|].
  unfold calAndPrintScores, compareAll, compareWithRest.
  cbn [alignments length]. rewrite Hal. cbn [mbind option_bind].
  unfold getSeqName. rewrite Hn1, Hn2. unfold printScore.
  cbn [mbind option_bind]. rewrite bool_decide_eq_true_2 by lia.
  cbn [mbind option_bind printed alignments printAlignment app concat].
  now rewrite app_nil_r.
Qed.

(** X10: for two records with names that hold the strings A and B, on a
    heap whose fresh string blocks hold one character at most,
    [calAndPrintScores] prints the score line of the pair, with the score of
    Cell(m,n), and after it the alignment that [compareSequences]
    returns. *)
Theorem calAndPrintScores_output (heaps : nat -> Heap) (seq1 seq2 : Sequence)
    (name1 name2 A B : list ascii) (m s g : Z) :
  seqName seq1 = Some name1 -> seqName seq2 = Some name2 ->
  holds seq1 A -> holds seq2 B -> shortStale (heaps O) ->
  exists alignment line,
    compareSequences (heaps O) seq1 seq2 m s g
    = Some (tableScore A B m s g (length A) (length B), alignment) /\
    printScore (Some name1) (Some name2) (tableScore A B m s g (length A) (length B))
    = Some line /\
    calAndPrintScores heaps [seq1; seq2] m s g = Some (line ++ alignment).
Proof. intros Hn1 Hn2 HA HB _. now apply compareAll_pair. Qed.

Lemma calAndPrintScores_output_witness :
  holds (setSeqName (record "AA") ["a"%char]) (list_ascii_of_string "AA") /\
  holds (setSeqName (record "A") ["b"%char]) (list_ascii_of_string "A") /\
  shortStale zeroedHeap /\
  exists alignment line,
    compareSequences zeroedHeap (setSeqName (record "AA") ["a"%char])
      (setSeqName (record "A") ["b"%char]) 2 (-1) (-2)
    = Some (tableScore (list_ascii_of_string "AA") (list_ascii_of_string "A")
              2 (-1) (-2) 2 1, alignment) /\
    printScore (Some ["a"%char]) (Some ["b"%char])
      (tableScore (list_ascii_of_string "AA") (list_ascii_of_string "A") 2 (-1) (-2) 2 1)
    = Some line /\
    calAndPrintScores (fun _ => zeroedHeap)
      [setSeqName (record "AA") ["a"%char]; setSeqName (record "A") ["b"%char]]
      2 (-1) (-2)
    = Some (line ++ alignment).
Proof.
  assert (H1 : holds (setSeqName (record "AA") ["a"%char]) (list_ascii_of_string "AA"))
    by (split; [reflexivity | split; vm_compute; reflexivity]).
  assert (H2 : holds (setSeqName (record "A") ["b"%char]) (list_ascii_of_string "A"))
    by (split; [reflexivity | split; vm_compute; reflexivity]).
  split; [exact H1|]. split; [exact H2|]. split; [exact zeroedHeap_short|].
  apply (calAndPrintScores_output (fun _ => zeroedHeap)
           (setSeqName (record "AA") ["a"%char]) (setSeqName (record "A") ["b"%char])
           ["a"%char] ["b"%char] _ _ 2 (-1) (-2) eq_refl eq_refl H1 H2
           zeroedHeap_short).
Defined.

(** X14: with three records or more [calAndPrintScores] returns nothing:
    the second alignment is written behind the block of the array
    [alignments], which has the size of one pointer.  With one record it
    compares nothing and prints nothing, and with none it reads a field of a
    null record. *)
Theorem calAndPrintScores_other_counts (heaps : nat -> Heap)
    (seq1 seq2 seq3 : Sequence) (rest : list Sequence) (m s g : Z) :
  calAndPrintScores heaps (seq1 :: seq2 :: seq3 :: rest) m s g = None /\
  calAndPrintScores heaps [seq1] m s g = Some [] /\
  calAndPrintScores heaps [] m s g = None.
Proof.
  split; [|split; reflexivity].
  unfold calAndPrintScores.
  change (compareAll heaps (seq1 :: seq2 :: seq3 :: rest) m s g (mkDriver [] []))
    with (compareWithRest heaps seq1 (seq2 :: seq3 :: rest) m s g (mkDriver [] [])
            ≫= compareAll heaps (seq2 :: seq3 :: rest) m s g).
  assert (compareWithRest heaps seq1 (seq2 :: seq3 :: rest) m s g (mkDriver [] [])
          = None) as ->; [|reflexivity].
  cbn [compareWithRest alignments length].
  destruct (compareSequences (heaps O) seq1 seq2 m s g) as [[sc1 al1]|]; [|reflexivity].
  cbn [mbind option_bind].
  destruct (printScore (getSeqName seq1) (getSeqName seq2) sc1) as [line1|];
    [|reflexivity].
  cbn [mbind option_bind]. rewrite bool_decide_eq_true_2 by lia.
  cbn [alignments app length].
  destruct (compareSequences (heaps 1%nat) seq1 seq3 m s g) as [[sc2 al2]|];
    [|reflexivity].
  cbn [mbind option_bind].
  destruct (printScore (getSeqName seq1) (getSeqName seq3) sc2) as [line2|];
    [|reflexivity].
  cbn [mbind option_bind]. now rewrite bool_decide_eq_false_2 by lia.
Qed.

(** ** From the file to the output *)

Lemma recordOf_holds (k : nat) (rec : list ascii * list ascii) :
  valueLine rec.2 -> holds (recordOf (fun _ => 0) k rec) rec.2.
Proof.
  intros (_ & _ & Hlen). unfold holds, recordOf. cbn [seqVal seqLen].
  split; [done|]. unfold strlen. split; [|lia].
  rewrite Z.add_0_l. apply size_wrap_small. lia.
Qed.

(** X11: parsing and comparing compose: a file of two records with a name
    and one value line each, read into zeroed blocks, gives the two records,
    and on a heap whose fresh string blocks hold one character at most
    [calAndPrintScores] prints for them the score line with the two names
    and the score of Cell(m,n), followed by the alignment that
    [compareSequences] returns for the two values. *)
Theorem parse_then_compare (heaps : nat -> Heap) (rec1 rec2 : list ascii * list ascii)
    (m s g : Z) :
  readableRecord rec1 -> readableRecord rec2 -> shortStale (heaps O) ->
  exists (seq1 seq2 : Sequence) (alignment line : list ascii),
    parseSeqFile (fun _ => 0) (renderRecord rec1 ++ renderRecord rec2) 0
    = Some ([seq1; seq2], 2) /\
    holds seq1 rec1.2 /\ holds seq2 rec2.2 /\
    compareSequences (heaps O) seq1 seq2 m s g
    = Some (tableScore rec1.2 rec2.2 m s g (length rec1.2) (length rec2.2),
            alignment) /\
    printScore (Some rec1.1) (Some rec2.1)
      (tableScore rec1.2 rec2.2 m s g (length rec1.2) (length rec2.2))
    = Some line /\
    calAndPrintScores heaps [seq1; seq2] m s g = Some (line ++ alignment).
Proof.
  intros Hr1 Hr2 _.
  set (seq1 := recordOf (fun _ => 0) 0 rec1).
  set (seq2 := recordOf (fun _ => 0) 1 rec2).
  assert (H1 : holds seq1 rec1.2) by (apply recordOf_holds, Hr1).
  assert (H2 : holds seq2 rec2.2) by (apply recordOf_holds, Hr2).
  destruct (compareAll_pair heaps seq1 seq2 rec1.1 rec2.1 rec1.2 rec2.2 m s g
              eq_refl eq_refl H1 H2) as (alignment & line & Hcmp & Hline & Hout).
  exists seq1, seq2, alignment, line.
  split; [|done].
  unfold parseSeqFile.
  destruct (parseLoop_records (fun _ => 0) [rec1; rec2] (mkParseState [] None true 0))
    as (st & Hloop & Hlinked & Hcount);
    [done | done | constructor; [exact Hr1 | constructor; [exact Hr2 | constructor]] |].
  cbn [fmap list_fmap concat] in Hloop. rewrite app_nil_r in Hloop.
  rewrite Hloop. cbn [mbind option_bind]. now rewrite Hlinked, Hcount.
Qed.

Lemma parse_then_compare_witness :
  readableRecord (["a"%char], ["G"; "A"; "T"]%char) /\
  readableRecord (["b"%char], ["G"; "T"]%char) /\
  shortStale zeroedHeap /\
  exists (seq1 seq2 : Sequence) (alignment line : list ascii),
    parseSeqFile (fun _ => 0)
      (renderRecord (["a"%char], ["G"; "A"; "T"]%char)
         ++ renderRecord (["b"%char], ["G"; "T"]%char)) 0
    = Some ([seq1; seq2], 2) /\
    holds seq1 ["G"; "A"; "T"]%char /\ holds seq2 ["G"; "T"]%char /\
    compareSequences zeroedHeap seq1 seq2 1 (-1) (-1)
    = Some (tableScore ["G"; "A"; "T"]%char ["G"; "T"]%char 1 (-1) (-1) 3 2,
            alignment) /\
    printScore (Some ["a"%char]) (Some ["b"%char])
      (tableScore ["G"; "A"; "T"]%char ["G"; "T"]%char 1 (-1) (-1) 3 2)
    = Some line /\
    calAndPrintScores (fun _ => zeroedHeap) [seq1; seq2] 1 (-1) (-1)
    = Some (line ++ alignment).
Proof.
  assert (H1 : readableRecord (["a"%char], ["G"; "A"; "T"]%char))
    by (repeat split; simpl; try discriminate; try lia; repeat constructor; discriminate).
  assert (H2 : readableRecord (["b"%char], ["G"; "T"]%char))
    by (repeat split; simpl; try discriminate; try lia; repeat constructor; discriminate).
  split; [exact H1|]. split; [exact H2|]. split; [exact zeroedHeap_short|].
  apply (parse_then_compare (fun _ => zeroedHeap) _ _ 1 (-1) (-1) H1 H2
           zeroedHeap_short).
Defined.

(** ** One run of the loop of [calAlignment] *)

Lemma walk_step_one_character_witness :
  walk_step
    [[mkCell None NUL 0; mkCell None NUL (-1)];
     [mkCell None NUL (-1); mkCell (Some (0, 0)) "D"%char 1]]
    (Some ["A"%char]) (Some ["A"%char]) (stale_strings usedHeap) (1, 1)
    (mkWalk (Some (1, 1)) [] [] 0 0 1)
  = Some (mkWalk (Some (0, 0)) ["A"%char] ["A"%char] (2^64 - 1) (2^64 - 1) 2) /\
  exists a b,
    ["A"%char] = [a] /\ ["A"%char] = [b] /\
    (a = SPACE_CHAR \/ ["A"%char] !! O = Some a) /\
    (b = SPACE_CHAR \/ ["A"%char] !! O = Some b).
Proof.
  assert (H : walk_step
    [[mkCell None NUL 0; mkCell None NUL (-1)];
     [mkCell None NUL (-1); mkCell (Some (0, 0)) "D"%char 1]]
    (Some ["A"%char]) (Some ["A"%char]) (stale_strings usedHeap) (1, 1)
    (mkWalk (Some (1, 1)) [] [] 0 0 1)
  = Some (mkWalk (Some (0, 0)) ["A"%char] ["A"%char] (2^64 - 1) (2^64 - 1) 2))
    by (vm_compute; reflexivity).
  split; [exact H|].
  apply (walk_step_one_character _ _ _ _ _ _ _ H).
  - left. vm_compute. reflexivity.
  - vm_compute. split; [discriminate | reflexivity].
  - vm_compute. split; [discriminate | reflexivity].
Defined.
